(** * TextDiffEditor: the text compare pane of the workbench

    A shallow embedding of
    [src/vs/workbench/browser/parts/editor/textDiffEditor.ts].

    The pane is glue between host services, so the embedding keeps the
    pane's own fields in a record, keeps the objects the pane allocates
    (diff navigators) in a heap indexed by allocation order, and records
    every call the pane makes on a collaborator (the diff widget, the
    editor service, a navigator, an options object) in a call log.
    Methods are written in a state-and-exception monad: a call on an
    undefined receiver throws a [TypeError] and leaves the effects made
    so far in place, as in JavaScript. *)

From Stdlib Require Import Ascii String Lia.
From stdpp Require Import base option list strings.

Local Open Scope string_scope.

(** ** Values of the host platform *)

(** Object identity ([===] on objects).  [Host n] is an object handed in
    by the workbench, [Own n] the [n]-th object allocated by the pane. *)
Inductive ObjId : Type :=
| Host (n : nat)
| Own (n : nat).

Definition ObjId_eqb (a b : ObjId) : bool :=
  match a, b with
  | Host n, Host m => Nat.eqb n m
  | Own n, Own m => Nat.eqb n m
  | _, _ => false
  end.

(** Editor inputs.  The pane tells them apart with [instanceof]; a
    subclass of [StringEditorInput] counts as a [StringEditorInput].
    [name] and [description] are what [getName()] and [getDescription()]
    return ([None] is JavaScript's [null]). *)
Inductive EditorInput : Type :=
| StringEditorInput (oid : ObjId) (name description : option string)
| ResourceEditorInput (oid : ObjId) (name description : option string)
| OtherEditorInput (oid : ObjId) (name description : option string)
| DiffEditorInput (oid : ObjId) (name description : option string)
    (originalInput modifiedInput : EditorInput) (forceOpenAsBinary : bool).

Definition oid_of (i : EditorInput) : ObjId :=
  match i with
  | StringEditorInput o _ _ | ResourceEditorInput o _ _
  | OtherEditorInput o _ _ | DiffEditorInput o _ _ _ _ _ => o
  end.

Definition getName (i : EditorInput) : option string :=
  match i with
  | StringEditorInput _ n _ | ResourceEditorInput _ n _
  | OtherEditorInput _ n _ | DiffEditorInput _ n _ _ _ _ => n
  end.

Definition getDescription (i : EditorInput) : option string :=
  match i with
  | StringEditorInput _ _ d | ResourceEditorInput _ _ d
  | OtherEditorInput _ _ d | DiffEditorInput _ _ d _ _ _ => d
  end.

(** [a === b] on two inputs. *)
Definition same_object (a b : EditorInput) : bool :=
  ObjId_eqb (oid_of a) (oid_of b).

Definition instanceof_DiffEditorInput (i : EditorInput) : bool :=
  match i with DiffEditorInput _ _ _ _ _ _ => true | _ => false end.

Definition instanceof_StringEditorInput (i : EditorInput) : bool :=
  match i with StringEditorInput _ _ _ => true | _ => false end.

Definition instanceof_ResourceEditorInput (i : EditorInput) : bool :=
  match i with ResourceEditorInput _ _ _ => true | _ => false end.

(** Editor options.  [TextDiffEditorOptions] extends [TextEditorOptions],
    which extends [EditorOptions]; only the two text classes carry an
    [apply] method. *)
Inductive OptionsClass : Type :=
| EditorOptionsClass
| TextEditorOptionsClass
| TextDiffEditorOptionsClass (autoRevealFirstChange : option bool).

Record EditorOptions : Type := {
  forceOpen : bool;
  optionsClass : OptionsClass
}.

(** [types.isFunction(options.apply)] *)
Definition isFunction_apply (o : EditorOptions) : bool :=
  match optionsClass o with
  | EditorOptionsClass => false
  | _ => true
  end.

(** The text model pair shown by the diff widget. *)
Definition DiffModel : Type := nat.

Inductive EditorModel : Type :=
| TextDiffEditorModel (textDiffEditorModel : DiffModel)
| OtherEditorModel.

Definition Position : Type := nat.

(** Only [FILE_IS_BINARY] is named by the pane. *)
Inductive FileOperationResult : Type :=
| FILE_IS_BINARY
| FILE_OPERATION_OTHER (code : nat).

(** What a rejected resolution carries: an error object, possibly with a
    [fileOperationResult] field, or an array of errors.  [TypeError] is
    what a call on [undefined] throws. *)
#[local] Unset Elimination Schemes.
Inductive ErrorValue : Type :=
| ErrorObject (message : string) (fileOperationResult : option FileOperationResult)
| ErrorArray (errors : list ErrorValue)
| TypeError (message : string).
#[local] Set Elimination Schemes.

(** Options handed to the diff widget; a field left [None] is absent. *)
Record IDiffEditorOptions : Type := {
  readOnly : option bool;
  ariaLabel : option string;
  renderSideBySide_option : option bool
}.

(** What the pane reads off the diff widget. *)
Record IDiffEditor : Type := {
  renderSideBySide : bool
}.

(** The base [Action] fields. *)
Record Action : Type := {
  id : string;
  label : string;
  class : option string;
  enabled : bool;
  order : option nat
}.

Record NavigateAction : Type := {
  action : Action;
  next : bool
}.

(** A diff navigator as the pane sees it. *)
Record DiffNavigator : Type := {
  alwaysRevealFirst : bool;
  nav_disposed : bool;
  canNavigate : bool;
  listening : bool
}.

(** Calls made on collaborators, in order. *)
Inductive Call : Type :=
| NewDiffNavigator (n : nat) (alwaysRevealFirst : bool)
| NavigatorDispose (n : nat)
| NavigatorAddListener (n : nat)
| NavigatorNext (n : nat)
| NavigatorPrevious (n : nat)
| ControlSetModel (m : option DiffModel)
| ControlUpdateOptions (o : IDiffEditorOptions)
| OptionsApply (o : EditorOptions) (editor : option IDiffEditor)
| OpenEditor (input : EditorInput) (options : option EditorOptions) (position : option Position)
| InputResolve (input : EditorInput) (load : nat)
| ContextKeySet (visible : bool)
| NewDiffEditorWidget (o : IDiffEditorOptions)
| OriginalEditorApply (o : EditorOptions).

(** The promise returned by [input.resolve(true).then(...)]. *)
Inductive Settlement : Type :=
| Fulfilled
| Rejected (e : ErrorValue).

Record Resolution : Type := {
  load_input : EditorInput;
  load_options : option EditorOptions;
  load_result : option Settlement
}.

(** ** The pane and its surroundings *)

Record State : Type := {
  (* fields of BaseEditor *)
  input : option EditorInput;
  options : option EditorOptions;
  position : option Position;
  editorControl : option IDiffEditor;
  (* fields of TextDiffEditor *)
  diffNavigator : option nat;
  nextDiffAction : option NavigateAction;
  previousDiffAction : option NavigateAction;
  textDiffEditorVisible : bool;
  (* the surroundings *)
  navigators : list DiffNavigator;
  allocated : nat;
  loads : list Resolution;
  calls : list Call
}.

Definition new_pane : State :=
  {| input := None; options := None; position := None; editorControl := None;
     diffNavigator := None; nextDiffAction := None; previousDiffAction := None;
     textDiffEditorVisible := false;
     navigators := []; allocated := 0; loads := []; calls := [] |}.

Definition with_input (v : option EditorInput) (o : option EditorOptions) (s : State) : State :=
  {| input := v; options := o; position := position s;
     editorControl := editorControl s; diffNavigator := diffNavigator s;
     nextDiffAction := nextDiffAction s; previousDiffAction := previousDiffAction s;
     textDiffEditorVisible := textDiffEditorVisible s;
     navigators := navigators s; allocated := allocated s; loads := loads s;
     calls := calls s |}.

Definition with_position (p : option Position) (s : State) : State :=
  {| input := input s; options := options s; position := p;
     editorControl := editorControl s; diffNavigator := diffNavigator s;
     nextDiffAction := nextDiffAction s; previousDiffAction := previousDiffAction s;
     textDiffEditorVisible := textDiffEditorVisible s;
     navigators := navigators s; allocated := allocated s; loads := loads s;
     calls := calls s |}.

Definition with_editorControl (c : option IDiffEditor) (s : State) : State :=
  {| input := input s; options := options s; position := position s;
     editorControl := c; diffNavigator := diffNavigator s;
     nextDiffAction := nextDiffAction s; previousDiffAction := previousDiffAction s;
     textDiffEditorVisible := textDiffEditorVisible s;
     navigators := navigators s; allocated := allocated s; loads := loads s;
     calls := calls s |}.

Definition with_diffNavigator (n : option nat) (s : State) : State :=
  {| input := input s; options := options s; position := position s;
     editorControl := editorControl s; diffNavigator := n;
     nextDiffAction := nextDiffAction s; previousDiffAction := previousDiffAction s;
     textDiffEditorVisible := textDiffEditorVisible s;
     navigators := navigators s; allocated := allocated s; loads := loads s;
     calls := calls s |}.

Definition with_nextDiffAction (a : option NavigateAction) (s : State) : State :=
  {| input := input s; options := options s; position := position s;
     editorControl := editorControl s; diffNavigator := diffNavigator s;
     nextDiffAction := a; previousDiffAction := previousDiffAction s;
     textDiffEditorVisible := textDiffEditorVisible s;
     navigators := navigators s; allocated := allocated s; loads := loads s;
     calls := calls s |}.

Definition with_previousDiffAction (a : option NavigateAction) (s : State) : State :=
  {| input := input s; options := options s; position := position s;
     editorControl := editorControl s; diffNavigator := diffNavigator s;
     nextDiffAction := nextDiffAction s; previousDiffAction := a;
     textDiffEditorVisible := textDiffEditorVisible s;
     navigators := navigators s; allocated := allocated s; loads := loads s;
     calls := calls s |}.

Definition with_textDiffEditorVisible (b : bool) (s : State) : State :=
  {| input := input s; options := options s; position := position s;
     editorControl := editorControl s; diffNavigator := diffNavigator s;
     nextDiffAction := nextDiffAction s; previousDiffAction := previousDiffAction s;
     textDiffEditorVisible := b;
     navigators := navigators s; allocated := allocated s; loads := loads s;
     calls := calls s |}.

Definition with_navigators (h : list DiffNavigator) (s : State) : State :=
  {| input := input s; options := options s; position := position s;
     editorControl := editorControl s; diffNavigator := diffNavigator s;
     nextDiffAction := nextDiffAction s; previousDiffAction := previousDiffAction s;
     textDiffEditorVisible := textDiffEditorVisible s;
     navigators := h; allocated := allocated s; loads := loads s;
     calls := calls s |}.

Definition with_allocated (n : nat) (s : State) : State :=
  {| input := input s; options := options s; position := position s;
     editorControl := editorControl s; diffNavigator := diffNavigator s;
     nextDiffAction := nextDiffAction s; previousDiffAction := previousDiffAction s;
     textDiffEditorVisible := textDiffEditorVisible s;
     navigators := navigators s; allocated := n; loads := loads s;
     calls := calls s |}.

Definition with_loads (l : list Resolution) (s : State) : State :=
  {| input := input s; options := options s; position := position s;
     editorControl := editorControl s; diffNavigator := diffNavigator s;
     nextDiffAction := nextDiffAction s; previousDiffAction := previousDiffAction s;
     textDiffEditorVisible := textDiffEditorVisible s;
     navigators := navigators s; allocated := allocated s; loads := l;
     calls := calls s |}.

Definition with_calls (c : list Call) (s : State) : State :=
  {| input := input s; options := options s; position := position s;
     editorControl := editorControl s; diffNavigator := diffNavigator s;
     nextDiffAction := nextDiffAction s; previousDiffAction := previousDiffAction s;
     textDiffEditorVisible := textDiffEditorVisible s;
     navigators := navigators s; allocated := allocated s; loads := loads s;
     calls := c |}.

(** ** The method monad *)

Inductive Completion (A : Type) : Type :=
| Normal (a : A)
| Throw (e : ErrorValue).
Arguments Normal {A} a.
Arguments Throw {A} e.

Definition M (A : Type) : Type := State -> Completion A * State.

Definition ret {A} (a : A) : M A := fun s => (Normal a, s).

Definition bind {A B} (m : M A) (k : A -> M B) : M B :=
  fun s =>
    match m s with
    | (Normal a, s') => k a s'
    | (Throw e, s') => (Throw e, s')
    end.

Definition throw {A} (e : ErrorValue) : M A := fun s => (Throw e, s).

Definition get {A} (f : State -> A) : M A := fun s => (Normal (f s), s).

Definition modify (f : State -> State) : M unit := fun s => (Normal tt, f s).

Declare Scope pane_scope.
Delimit Scope pane_scope with pane.
Notation "x <- m ;; k" := (bind m (fun x => k))
  (at level 100, m at next level, right associativity) : pane_scope.
Notation "m ;; k" := (bind m (fun _ => k))
  (at level 100, right associativity) : pane_scope.
Local Open Scope pane_scope.

(** Record a call on a collaborator. *)
Definition call (c : Call) : M unit :=
  modify (fun s => with_calls (calls s ++ [c]) s).

(** [receiver.method(...)] where [receiver] may be [undefined]. *)
Definition deref {A} (what : string) (o : option A) : M A :=
  match o with
  | Some a => ret a
  | None => throw (TypeError what)
  end.

(** ** Localisation *)

(** [nls.localize(key, message, arg)]: the default message with every
    [{0}] replaced by the argument. *)
Fixpoint format (message arg : string) : string :=
  match message with
  | String "{"%char (String "0"%char (String "}"%char rest)) =>
      arg ++ format rest arg
  | String c rest => String c (format rest arg)
  | EmptyString => EmptyString
  end.

Definition localize (key message : string) (args : list string) : string :=
  match args with
  | [] => message
  | arg :: _ => format message arg
  end.

(** JavaScript truthiness of a string-or-null. *)
Definition truthy (s : option string) : bool :=
  match s with
  | Some s => negb (String.eqb s "")
  | None => false
  end.

(** ** TextDiffEditor *)

Section TextDiffEditor.

(** What the pane takes from code outside this file: the inputs'
    [matches] method, the options and the secondary actions of the
    base text editor. *)
Variable matches : EditorInput -> option EditorInput -> bool.
Variable super_getCodeEditorOptions : IDiffEditorOptions.
Variable super_getSecondaryActions : list Action.

(** Modelled from the spec: [BaseEditor.setInput] and
    [BaseEditor.clearInput] of the base pane class, which is not part
    of this file; they hold "the currently displayed comparison
    input", so the first stores the input and its options and the
    second forgets them. *)
Definition super_setInput (i : EditorInput) (o : option EditorOptions) : M unit :=
  modify (with_input (Some i) o).

Definition super_clearInput : M unit :=
  modify (with_input None None).

(** Modelled from the spec: [BaseEditor.setEditorVisible], code of the
    base pane class that is not part of this file.  The spec names the
    visibility change among the lifecycle callbacks the host framework
    dictates and says no more about it; the model lets it keep the
    position it is passed, which this file reads back as
    [this.position].  No property below speaks of how the position is
    set. *)
Definition super_setEditorVisible (visible : bool) (p : option Position) : M unit :=
  modify (with_position p).

Definition getInput : M (option EditorInput) := get input.

Definition getControl : M (option IDiffEditor) := get editorControl.

Definition getDiffNavigator : M (option nat) := get diffNavigator.

Definition getTitle : M (option string) :=
  i <- get input ;;
  match i with
  | Some i => ret (getName i)
  | None => ret (Some (localize "textDiffEditor" "Text Diff Editor" []))
  end.

Definition getCodeEditorOptions : M IDiffEditorOptions :=
  let options := super_getCodeEditorOptions in
  i <- get input ;;
  match i with
  | Some (DiffEditorInput _ _ _ _ modifiedInput _ as input) =>
      let readOnly :=
        instanceof_StringEditorInput modifiedInput
        || instanceof_ResourceEditorInput modifiedInput in
      let inputName := getName input in
      let ariaLabel :=
        if readOnly then
          if truthy inputName
          then localize "readonlyEditorWithInputAriaLabel"
                 "{0}. Readonly text compare editor." [default "" inputName]
          else localize "readonlyEditorAriaLabel" "Readonly text compare editor." []
        else
          if truthy inputName
          then localize "editableEditorWithInputAriaLabel"
                 "{0}. Text file compare editor." [default "" inputName]
          else localize "editableEditorAriaLabel" "Text file compare editor." [] in
      ret {| readOnly := Some readOnly;
             ariaLabel := Some ariaLabel;
             renderSideBySide_option := renderSideBySide_option options |}
  | _ => ret options
  end.

(** *** NavigateAction *)

Definition ID_NEXT : string := "workbench.action.compareEditor.nextChange".
Definition ID_PREV : string := "workbench.action.compareEditor.previousChange".

Definition new_NavigateAction (next : bool) : NavigateAction :=
  {| action :=
       {| id := if next then ID_NEXT else ID_PREV;
          label := if next
                   then localize "navigate.next.label" "Next Change" []
                   else localize "navigate.prev.label" "Previous Change" [];
          class := Some (if next then "textdiff-editor-action next"
                         else "textdiff-editor-action previous");
          enabled := false;
          order := None |};
     next := next |}.

Definition set_enabled (b : bool) (a : NavigateAction) : NavigateAction :=
  {| action :=
       {| id := id (action a); label := label (action a);
          class := class (action a); enabled := b;
          order := order (action a) |};
     next := next a |}.

(** [run()].  The call on the navigator is recorded; what the
    navigator does with it, a refusal by a disposed navigator included,
    is code outside this file, so the properties below speak of the
    call made and of the pane's state, not of how the call returns. *)
Definition NavigateAction_run (a : NavigateAction) : M unit :=
  if next a then
    n <- getDiffNavigator ;;
    n <- deref "next" n ;;
    call (NavigatorNext n)
  else
    n <- getDiffNavigator ;;
    n <- deref "previous" n ;;
    call (NavigatorPrevious n).

(** [this.enabled = this.editor.getDiffNavigator().canNavigate()];
    the updated action is returned. *)
Definition updateEnablement (a : NavigateAction) : M NavigateAction :=
  n <- getDiffNavigator ;;
  n <- deref "canNavigate" n ;;
  h <- get navigators ;;
  nav <- deref "canNavigate" (h !! n) ;;
  ret (set_enabled (canNavigate nav) a).

(** The listener the pane registers for [DiffNavigator.Events.UPDATED]. *)
Definition onNavigatorUpdated : M unit :=
  a <- get nextDiffAction ;;
  a <- deref "updateEnablement" a ;;
  a <- updateEnablement a ;;
  modify (with_nextDiffAction (Some a)) ;;
  a <- get previousDiffAction ;;
  a <- deref "updateEnablement" a ;;
  a <- updateEnablement a ;;
  modify (with_previousDiffAction (Some a)).

(** *** The diff navigator the pane holds *)

Definition set_disposed (nav : DiffNavigator) : DiffNavigator :=
  {| alwaysRevealFirst := alwaysRevealFirst nav; nav_disposed := true;
     canNavigate := canNavigate nav; listening := listening nav |}.

Definition add_listener (nav : DiffNavigator) : DiffNavigator :=
  {| alwaysRevealFirst := alwaysRevealFirst nav; nav_disposed := nav_disposed nav;
     canNavigate := canNavigate nav; listening := true |}.

Definition set_canNavigate (b : bool) (nav : DiffNavigator) : DiffNavigator :=
  {| alwaysRevealFirst := alwaysRevealFirst nav; nav_disposed := nav_disposed nav;
     canNavigate := b; listening := listening nav |}.

(** [if (this.diffNavigator) { this.diffNavigator.dispose(); }] *)
Definition disposeDiffNavigator : M unit :=
  n <- get diffNavigator ;;
  match n with
  | Some n =>
      call (NavigatorDispose n) ;;
      modify (fun s => with_navigators (alter set_disposed n (navigators s)) s)
  | None => ret tt
  end.

(** [new DiffNavigator(diffEditor, { alwaysRevealFirst })] *)
Definition new_DiffNavigator (reveal : bool) : M nat :=
  h <- get navigators ;;
  let n := length h in
  call (NewDiffNavigator n reveal) ;;
  modify (with_navigators
            (h ++ [ {| alwaysRevealFirst := reveal; nav_disposed := false;
                       canNavigate := false; listening := false |} ])) ;;
  ret n.

Definition addListener2_UPDATED (n : nat) : M unit :=
  call (NavigatorAddListener n) ;;
  modify (fun s => with_navigators (alter add_listener n (navigators s)) s).

(** *** createEditorControl *)

(** [widget] is the [DiffEditorWidget] instance the instantiation
    service hands back.  The delegating editor service the method
    builds for the widget only calls back into [setInput] and into
    [apply] of the options it is given; such a call reaches the pane as
    a [SetInput] stimulus below. *)
Definition createEditorControl (widget : IDiffEditor) : M IDiffEditor :=
  modify (with_nextDiffAction (Some (new_NavigateAction true))) ;;
  modify (with_previousDiffAction (Some (new_NavigateAction false))) ;;
  o <- getCodeEditorOptions ;;
  call (NewDiffEditorWidget o) ;;
  ret widget.

(** *** setInput *)

(** The promise [setInput] returns: [TPromise.as(null)], or the one
    chained on the resolution of load number [load]. *)
Inductive SetInputPromise : Type :=
| TPromise_as_null
| Resolving (load : nat).

(** What a [then] callback hands back. *)
Inductive CallbackReturn : Type :=
| ReturnNull
| ReturnUndefined
| ReturnWrapError (e : ErrorValue).

(** [input.resolve(true).then(...)]: the resolution is pending until
    the host completes it. *)
Definition resolve_then (i : EditorInput) (o : option EditorOptions) : M nat :=
  l <- get loads ;;
  let k := length l in
  call (InputResolve i k) ;;
  modify (with_loads
            (l ++ [ {| load_input := i; load_options := o; load_result := None |} ])) ;;
  ret k.

(** [options.apply(editor)] *)
Definition TextEditorOptions_apply (o : EditorOptions) (editor : option IDiffEditor) : M unit :=
  call (OptionsApply o editor).

Definition setInput (i : EditorInput) (o : option EditorOptions) : M SetInputPromise :=
  oldInput <- getInput ;;
  super_setInput i o ;;
  let forceOpen := match o with Some o => forceOpen o | None => false end in
  if negb forceOpen && matches i oldInput then
    match o with
    | Some textOptions =>
        if isFunction_apply textOptions then
          c <- getControl ;;
          TextEditorOptions_apply textOptions c
        else ret tt
    | None => ret tt
    end ;;
    ret TPromise_as_null
  else
    disposeDiffNavigator ;;
    k <- resolve_then i o ;;
    ret (Resolving k).

(** [new DiffEditorInput(name, description, original, modified, true)] *)
Definition new_DiffEditorInput (name description : option string)
    (originalInput modifiedInput : EditorInput) (forceOpenAsBinary : bool)
    : M EditorInput :=
  n <- get allocated ;;
  modify (with_allocated (S n)) ;;
  ret (DiffEditorInput (Own n) name description originalInput modifiedInput
         forceOpenAsBinary).

Definition openAsBinary (i : EditorInput) (o : option EditorOptions) : M bool :=
  match i with
  | DiffEditorInput _ _ _ originalInput modifiedInput _ =>
      binaryDiffInput <-
        new_DiffEditorInput (getName i) (getDescription i)
          originalInput modifiedInput true ;;
      p <- get position ;;
      call (OpenEditor binaryDiffInput o p) ;;
      ret true
  | _ => ret false
  end.

Fixpoint isFileBinaryError (error : ErrorValue) : bool :=
  match error with
  | ErrorArray errors => existsb isFileBinaryError errors
  | ErrorObject _ (Some FILE_IS_BINARY) => true
  | _ => false
  end.

(** [!this.getInput() || this.getInput() !== input] *)
Definition input_changed (current : option EditorInput) (i : EditorInput) : bool :=
  match current with
  | None => true
  | Some c => negb (same_object c i)
  end.

Definition instanceof_TextDiffEditorModel (m : option EditorModel) : bool :=
  match m with
  | Some (TextDiffEditorModel _) => true
  | _ => false
  end.

(** The success callback of the resolution. *)
Definition setInput_resolved (i : EditorInput) (o : option EditorOptions)
    (resolvedModel : option EditorModel) : M CallbackReturn :=
  binary <- (if instanceof_TextDiffEditorModel resolvedModel then ret false
             else openAsBinary i o) ;;
  if binary then ret ReturnNull else
  current <- getInput ;;
  if input_changed current i then ret ReturnNull else
  diffEditor <- getControl ;;
  _ <- deref "setModel" diffEditor ;;
  model <- match resolvedModel with
           | Some (TextDiffEditorModel m) => ret (Some m)
           | Some OtherEditorModel => ret None
           | None => throw (TypeError "textDiffEditorModel")
           end ;;
  call (ControlSetModel model) ;;
  let autoRevealFirstChange :=
    match o with
    | Some {| optionsClass := TextDiffEditorOptionsClass (Some b) |} => b
    | _ => true
    end in
  n <- new_DiffNavigator autoRevealFirstChange ;;
  modify (with_diffNavigator (Some n)) ;;
  addListener2_UPDATED n ;;
  match o with
  | Some textOptions =>
      if isFunction_apply textOptions
      then TextEditorOptions_apply textOptions diffEditor
      else ret tt
  | None => ret tt
  end ;;
  opts <- getCodeEditorOptions ;;
  call (ControlUpdateOptions opts) ;;
  ret ReturnUndefined.

(** The error callback of the resolution. *)
Definition setInput_rejected (i : EditorInput) (o : option EditorOptions)
    (error : ErrorValue) : M CallbackReturn :=
  binary <- (if isFileBinaryError error then openAsBinary i o else ret false) ;;
  if binary then ret ReturnNull
  else ret (ReturnWrapError error).

(** How the promise returned by [setInput] settles once a callback has
    run: a thrown value or a returned error promise rejects it. *)
Definition settle (r : Completion CallbackReturn) : Settlement :=
  match r with
  | Normal ReturnNull | Normal ReturnUndefined => Fulfilled
  | Normal (ReturnWrapError e) => Rejected e
  | Throw e => Rejected e
  end.

(** *** clearInput, setEditorVisible, dispose *)

Definition clearInput : M unit :=
  disposeDiffNavigator ;;
  c <- getControl ;;
  _ <- deref "setModel" c ;;
  call (ControlSetModel None) ;;
  super_clearInput.

Definition setEditorVisible (visible : bool) (p : option Position) : M unit :=
  call (ContextKeySet visible) ;;
  modify (with_textDiffEditorVisible visible) ;;
  super_setEditorVisible visible p.

Definition getActions : M (list (option NavigateAction)) :=
  p <- get previousDiffAction ;;
  n <- get nextDiffAction ;;
  ret [p; n].

(** [dispose()] of the pane disposes the held navigator and then runs
    [super.dispose()].  That second call is code of the base class,
    outside this file: what it does to the widget, and through the
    widget to the navigators listening on it, is not modelled.  The
    model therefore follows navigators up to the disposal of the pane
    and records only the pane's own [dispose()] call on the navigator
    it holds. *)
Definition dispose : M unit :=
  disposeDiffNavigator.

(** *** getSecondaryActions *)

(** An action handed to the host: one of the base class, or the toggle
    action with the variable [inlineModeActive] its closure captures
    ([None] is [undefined]). *)
Inductive IAction : Type :=
| BaseAction (a : Action)
| ToggleEditorModeAction (a : Action) (inlineModeActive : option bool).

Definition inlineLabel : string := localize "inlineDiffLabel" "Switch to Inline View" [].
Definition sideBySideLabel : string :=
  localize "sideBySideDiffLabel" "Switch to Side by Side View" [].

(** Truthiness of a boolean-or-undefined. *)
Definition is_true (b : option bool) : bool := default false b.

Definition getSecondaryActions : M (list IAction) :=
  let actions : list IAction := map BaseAction super_getSecondaryActions in
  control <- getControl ;;
  let inlineModeActive :=
    match control with
    | Some c => Some (negb (renderSideBySide c))
    | None => None
    end in
  let toggleEditorModeAction :=
    {| id := "toggle.diff.editorMode";
       label := if is_true inlineModeActive then sideBySideLabel else inlineLabel;
       class := None; enabled := true; order := Some 50 |} in
  ret (actions ++ [ToggleEditorModeAction toggleEditorModeAction inlineModeActive])%list.

Definition set_label (l : string) (a : Action) : Action :=
  {| id := id a; label := l; class := class a; enabled := enabled a;
     order := order a |}.

(** Running the toggle action: the action after the run. *)
Definition toggleEditorModeAction_run (a : Action) (inlineModeActive : option bool)
    : M IAction :=
  c <- getControl ;;
  _ <- deref "updateOptions" c ;;
  call (ControlUpdateOptions
          {| readOnly := None; ariaLabel := None;
             renderSideBySide_option := inlineModeActive |}) ;;
  let inlineModeActive := Some (negb (is_true inlineModeActive)) in
  ret (ToggleEditorModeAction
         (set_label (if is_true inlineModeActive then sideBySideLabel else inlineLabel) a)
         inlineModeActive).

(** ** The pane driven by its host *)

(** What can happen to a pane: the host calls one of its methods, an
    input resolution started by [setInput] completes, a navigator
    recomputes its ranges and fires [UPDATED], or the user runs one of
    the two navigate actions. *)
Inductive Stimulus : Type :=
| CreateEditor (widget : IDiffEditor)
| SetInput (i : EditorInput) (o : option EditorOptions)
| ClearInput
| SetEditorVisible (visible : bool) (p : option Position)
| Dispose
| ResolveDone (load : nat) (resolvedModel : option EditorModel)
| ResolveFailed (load : nat) (error : ErrorValue)
| NavigatorUpdated (n : nat) (canNavigate : bool)
| RunNavigate (next : bool).

Definition exec {A} (m : M A) (s : State) : State := snd (m s).

Definition set_result (r : Settlement) (l : Resolution) : Resolution :=
  {| load_input := load_input l; load_options := load_options l;
     load_result := Some r |}.

(** Run a callback of load [k], if that load is still pending, and
    settle the promise [setInput] returned for it. *)
Definition complete (k : nat)
    (callback : EditorInput -> option EditorOptions -> M CallbackReturn)
    (s : State) : State :=
  match loads s !! k with
  | Some {| load_input := i; load_options := o; load_result := None |} =>
      let (r, s') := callback i o s in
      with_loads (alter (set_result (settle r)) k (loads s')) s'
  | _ => s
  end.

(** The pane's answer to a stimulus.  A throw ends the call and leaves
    the effects made so far in place.  [CreateEditor] is the base
    class's [createEditor], which keeps the widget that
    [createEditorControl] returns; [UPDATED] runs the pane's listener
    on a navigator that carries one. *)
Definition deliver (e : Stimulus) (s : State) : State :=
  match e with
  | CreateEditor widget =>
      exec (c <- createEditorControl widget ;;
            modify (with_editorControl (Some c))) s
  | SetInput i o => exec (setInput i o) s
  | ClearInput => exec clearInput s
  | SetEditorVisible visible p => exec (setEditorVisible visible p) s
  | Dispose => exec dispose s
  | ResolveDone k resolvedModel =>
      complete k (fun i o => setInput_resolved i o resolvedModel) s
  | ResolveFailed k error =>
      complete k (fun i o => setInput_rejected i o error) s
  | NavigatorUpdated n b =>
      match navigators s !! n with
      | Some nav =>
          let s' := with_navigators (alter (set_canNavigate b) n (navigators s)) s in
          if listening nav then exec onNavigatorUpdated s' else s'
      | None => s
      end
  | RunNavigate nx =>
      match (if nx then nextDiffAction s else previousDiffAction s) with
      | Some a => exec (NavigateAction_run a) s
      | None => s
      end
  end.

Fixpoint run (es : list Stimulus) (s : State) : State :=
  match es with
  | [] => s
  | e :: es => run es (deliver e s)
  end.

(** A navigator is live from its creation until its disposal. *)
Definition live (s : State) (n : nat) : bool :=
  match navigators s !! n with
  | Some nav => negb (nav_disposed nav)
  | None => false
  end.

Definition live_navigators (s : State) : list nat :=
  List.filter (live s) (seq 0 (length (navigators s))).

(** The binary-file condition on a rejection value: the error carries
    [fileOperationResult === FILE_IS_BINARY], or it is an array one of
    whose elements meets the condition. *)
Inductive FileIsBinary : ErrorValue -> Prop :=
| binary_object message :
    FileIsBinary (ErrorObject message (Some FILE_IS_BINARY))
| binary_array errors e :
    In e errors -> FileIsBinary e -> FileIsBinary (ErrorArray errors).

(** ** Properties *)

Local Open Scope list_scope.

(** *** Induction on rejection values *)

Section ErrorValue_induction.
Variable P : ErrorValue -> Prop.
Hypothesis P_object : forall m r, P (ErrorObject m r).
Hypothesis P_array : forall es, Forall P es -> P (ErrorArray es).
Hypothesis P_type : forall m, P (TypeError m).

Fixpoint ErrorValue_ind (e : ErrorValue) : P e :=
  match e with
  | ErrorObject m r => P_object m r
  | ErrorArray es =>
      P_array es
        ((fix all (l : list ErrorValue) : Forall P l :=
            match l with
            | [] => @List.Forall_nil _ P
            | x :: l => @List.Forall_cons _ P x l (ErrorValue_ind x) (all l)
            end) es)
  | TypeError m => P_type m
  end.
End ErrorValue_induction.

Lemma isFileBinaryError_spec (e : ErrorValue) :
  isFileBinaryError e = true <-> FileIsBinary e.
Proof.
  induction e as [m r | es IH | m] using ErrorValue_ind.
  - destruct r as [[|c]|]; simpl; split; intros H;
      try discriminate; try constructor; inversion H.
  - change (existsb isFileBinaryError es = true <-> FileIsBinary (ErrorArray es)).
    rewrite existsb_exists. split.
    + intros (x & Hin & Hx). apply (binary_array es x Hin).
      rewrite Forall_forall in IH. apply (IH x); [|exact Hx].
      apply list_elem_of_In, Hin.
    + intros H. inversion H as [|es' x Hin Hx]; subst.
      exists x. split; [exact Hin|].
      rewrite Forall_forall in IH. apply (IH x); [|exact Hx].
      apply list_elem_of_In, Hin.
  - simpl. split; intros H; [discriminate | inversion H].
Qed.


(** *** Title and widget options *)

(** C8: [getTitle] returns the name of the current input whenever an
    input is set, and the default title "Text Diff Editor" whenever
    none is set; it changes nothing. *)
Theorem getTitle_name_or_default (s : State) :
  getTitle s =
    (Normal (match input s with
             | Some i => getName i
             | None => Some "Text Diff Editor"
             end), s).
Proof.
  unfold getTitle, bind, get, ret. destruct (input s); reflexivity.
Qed.

Lemma format_readonly (n : string) :
  format "{0}. Readonly text compare editor." n
  = (n ++ ". Readonly text compare editor.")%string.
Proof. reflexivity. Qed.

Lemma format_editable (n : string) :
  format "{0}. Text file compare editor." n
  = (n ++ ". Text file compare editor.")%string.
Proof. reflexivity. Qed.

(** The label the widget is given, in the words of the description:
    one of two sentences, with the input name in front when there is
    one. *)
Definition compare_editor_label (readOnly : bool) (name : option string) : string :=
  let sentence :=
    if readOnly then "Readonly text compare editor."
    else "Text file compare editor." in
  match name with
  | Some n => if String.eqb n "" then sentence
              else (n ++ ". " ++ sentence)%string
  | None => sentence
  end.

(** C9: with a diff input current, [getCodeEditorOptions] sets
    [readOnly] to true exactly when the modified side is a string or a
    resource input, and sets the ARIA label to the read-only or the
    editable sentence accordingly, with the input name in front when
    the input has one. *)
Theorem getCodeEditorOptions_diff_input (s : State) oid name description
    originalInput modifiedInput forceOpenAsBinary :
  input s = Some (DiffEditorInput oid name description originalInput
                    modifiedInput forceOpenAsBinary) ->
  exists o ro,
    getCodeEditorOptions s = (Normal o, s)
    /\ readOnly o = Some ro
    /\ (ro = true <->
          instanceof_StringEditorInput modifiedInput = true
          \/ instanceof_ResourceEditorInput modifiedInput = true)
    /\ ariaLabel o = Some (compare_editor_label ro name).
Proof.
  intros Hin. unfold getCodeEditorOptions, bind, get, ret. rewrite Hin.
  eexists _, _. split; [reflexivity|]. split; [reflexivity|]. split.
  - apply orb_true_iff.
  - simpl. f_equal. unfold compare_editor_label, truthy, localize.
    destruct (_ || _); destruct name as [n|]; simpl;
      try destruct (String.eqb n ""); reflexivity.
Qed.

(** *** The navigate actions *)

(** C7: running a navigate action, whatever its enabled flag, forwards
    exactly one call to the navigator the pane holds, [next()] when the
    action's [next] is true and [previous()] when it is false, and
    changes nothing else; the constructor stores the [next] it is
    given, so the action built with [next = true] calls [next()] and
    the one built with [next = false] calls [previous()]. *)
Theorem NavigateAction_run_forwards (s : State) (a : NavigateAction) (n : nat) :
  diffNavigator s = Some n ->
  snd (NavigateAction_run a s)
    = with_calls (calls s ++ [if next a then NavigatorNext n
                              else NavigatorPrevious n]) s
  /\ next (new_NavigateAction true) = true
  /\ next (new_NavigateAction false) = false.
Proof.
  intros Hn. split; [|split; reflexivity].
  unfold NavigateAction_run, getDiffNavigator, bind, get, call, modify, deref,
    ret.
  destruct (next a); simpl; rewrite Hn; reflexivity.
Qed.

(** *** The toggle action *)

(** C10: the toggle action built while the widget exists sends its
    current mode on each run and flips it, swapping its label; the
    second run sends the opposite of the first, and after it the
    action is again as it was built. *)
Theorem toggleEditorModeAction_run_twice (s s1 s2 : State) (c c1 c2 : IDiffEditor) :
  editorControl s = Some c ->
  editorControl s1 = Some c1 ->
  editorControl s2 = Some c2 ->
  exists a m a1,
    fst (getSecondaryActions s)
      = Normal (map BaseAction super_getSecondaryActions
                ++ [ToggleEditorModeAction a (Some m)])
    /\ label a = (if m then sideBySideLabel else inlineLabel)
    /\ toggleEditorModeAction_run a (Some m) s1
        = (Normal (ToggleEditorModeAction a1 (Some (negb m))),
           with_calls (calls s1 ++
             [ControlUpdateOptions {| readOnly := None; ariaLabel := None;
                                      renderSideBySide_option := Some m |}]) s1)
    /\ label a1 = (if m then inlineLabel else sideBySideLabel)
    /\ toggleEditorModeAction_run a1 (Some (negb m)) s2
        = (Normal (ToggleEditorModeAction a (Some m)),
           with_calls (calls s2 ++
             [ControlUpdateOptions {| readOnly := None; ariaLabel := None;
                                      renderSideBySide_option := Some (negb m) |}]) s2).
Proof.
  intros H H1 H2.
  unfold getSecondaryActions, toggleEditorModeAction_run, getControl,
    bind, get, ret, call, modify, deref; simpl.
  rewrite H, H1, H2; simpl.
  eexists _, (negb (renderSideBySide c)), _.
  split; [reflexivity|]. split; [reflexivity|].
  split; [reflexivity|].
  destruct (renderSideBySide c); simpl; repeat split; reflexivity.
Qed.

(** *** setInput with the input already shown *)

(** C2: when the input matches the current one and [forceOpen] is not
    set, [setInput] returns [TPromise.as(null)] at once: no navigator
    is disposed or created, the pane keeps the navigator it holds, no
    resolution is started, and the only call made is at most one
    [apply] of the text options on the control. *)
Theorem setInput_same_input_keeps_navigator (s : State) (i : EditorInput)
    (o : option EditorOptions) :
  matches i (input s) = true ->
  match o with Some o => forceOpen o | None => false end = false ->
  exists s',
    setInput i o s = (Normal TPromise_as_null, s')
    /\ navigators s' = navigators s
    /\ diffNavigator s' = diffNavigator s
    /\ loads s' = loads s
    /\ (calls s' = calls s
        \/ exists textOptions,
             o = Some textOptions
             /\ calls s' = calls s ++ [OptionsApply textOptions (editorControl s)]).
Proof.
  intros Hm Hf.
  unfold setInput, getInput, super_setInput, getControl,
    TextEditorOptions_apply, bind, get, ret, call, modify; simpl.
  rewrite Hf, Hm; simpl.
  destruct o as [t|]; [destruct (isFunction_apply t)|]; simpl;
    eexists; (split; [reflexivity|]); simpl; repeat split; eauto.
Qed.

(** *** The rejection callback *)



(** *** A resolution that completes late *)

(** A late result: the pane's input is no longer the one the
    resolution was started for. *)
Definition stale (s : State) (i : EditorInput) : Prop :=
  input_changed (input s) i = true.

(** The part of the race guard that holds: on a late result the
    success callback sets no model on the widget and creates no
    navigator, and the rejection callback never does either. *)
Lemma setInput_resolved_stale_no_update (s : State) (i : EditorInput)
    (o : option EditorOptions) (m : option EditorModel) :
  stale s i ->
  exists r s',
    setInput_resolved i o m s = (Normal r, s')
    /\ navigators s' = navigators s
    /\ diffNavigator s' = diffNavigator s
    /\ (calls s' = calls s
        \/ exists b p, calls s' = calls s ++ [OpenEditor b o p]).
Proof.
  unfold stale. intros Hs.
  unfold setInput_resolved, bind.
  destruct (instanceof_TextDiffEditorModel m).
  - unfold ret at 1. simpl. unfold getInput, get. rewrite Hs.
    eexists _, _. split; [reflexivity|]. auto.
  - destruct i; simpl; unfold getInput, get; try rewrite Hs;
      eexists _, _; (split; [reflexivity|]); simpl; repeat split; eauto.
Qed.

(** C5 (where the guard is missing): a late result whose model is not
    a text diff model, for a diff input, still makes the re-open call:
    [openAsBinary] runs before the check that the input is unchanged.
    The same holds for a late binary-file rejection, whose callback
    has no such check. *)
Theorem stale_result_still_reopens_as_binary (s : State) oid name description
    originalInput modifiedInput forceOpenAsBinary
    (o : option EditorOptions) (m : option EditorModel) (error : ErrorValue) :
  let i := DiffEditorInput oid name description originalInput modifiedInput
             forceOpenAsBinary in
  let binaryDiffInput :=
    DiffEditorInput (Own (allocated s)) name description originalInput
      modifiedInput true in
  stale s i ->
  instanceof_TextDiffEditorModel m = false ->
  FileIsBinary error ->
  calls (snd (setInput_resolved i o m s))
    = calls s ++ [OpenEditor binaryDiffInput o (position s)]
  /\ calls (snd (setInput_rejected i o error s))
    = calls s ++ [OpenEditor binaryDiffInput o (position s)].
Proof.
  intros i b _ Hm Hb. apply isFileBinaryError_spec in Hb. split.
  - unfold setInput_resolved, bind. rewrite Hm. reflexivity.
  - unfold setInput_rejected, bind. rewrite Hb. reflexivity.
Qed.

(** *** Reasoning about methods *)

(** [wp m Q s]: running [m] from [s] ends, normally or by a throw, in
    a completion and a state that satisfy [Q]. *)
Definition wp {A} (m : M A) (Q : Completion A -> State -> Prop) (s : State) : Prop :=
  Q (fst (m s)) (snd (m s)).

Lemma wp_bind {A B} (m : M A) (k : A -> M B) Q s :
  wp m (fun r s' =>
          match r with
          | Normal a => wp (k a) Q s'
          | Throw e => Q (Throw e) s'
          end) s ->
  wp (bind m k) Q s.
Proof. unfold wp, bind. destruct (m s) as [[a|e] s']; simpl; auto. Qed.

Lemma wp_ret {A} (a : A) Q s : Q (Normal a) s -> wp (ret a) Q s.
Proof. auto. Qed.

Lemma wp_throw {A} e (Q : Completion A -> State -> Prop) s :
  Q (Throw e) s -> wp (throw e) Q s.
Proof. auto. Qed.

Lemma wp_get {A} (f : State -> A) Q s : Q (Normal (f s)) s -> wp (get f) Q s.
Proof. auto. Qed.

Lemma wp_modify (f : State -> State) Q s : Q (Normal tt) (f s) -> wp (modify f) Q s.
Proof. auto. Qed.

Lemma wp_call c Q s :
  Q (Normal tt) (with_calls (calls s ++ [c]) s) -> wp (call c) Q s.
Proof. auto. Qed.

Lemma wp_deref {A} what (o : option A) Q s :
  match o with
  | Some a => Q (Normal a) s
  | None => Q (Throw (TypeError what)) s
  end ->
  wp (deref what o) Q s.
Proof. destruct o; auto. Qed.

Lemma wp_getCodeEditorOptions Q s :
  (forall o, Q (Normal o) s) -> wp getCodeEditorOptions Q s.
Proof.
  intros H. unfold getCodeEditorOptions, wp, bind, get, ret.
  destruct (input s) as [[]|]; apply H.
Qed.

Ltac wp_prim :=
  lazymatch goal with
  | |- wp (bind _ _) _ _ => apply wp_bind
  | |- wp (ret _) _ _ => apply wp_ret
  | |- wp (throw _) _ _ => apply wp_throw
  | |- wp (get _) _ _ => apply wp_get
  | |- wp (modify _) _ _ => apply wp_modify
  | |- wp (call _) _ _ => apply wp_call
  | |- wp (deref _ _) _ _ => apply wp_deref
  | |- wp getCodeEditorOptions _ _ => apply wp_getCodeEditorOptions; intros ?
  end.

Ltac wp_case :=
  match goal with
  | |- wp (match ?x with _ => _ end) _ _ => destruct x eqn:?
  | |- wp (if ?x then _ else _) _ _ => destruct x eqn:?
  | |- match ?x with _ => _ end => destruct x eqn:?
  end.

Ltac wp_unfold :=
  unfold setInput, setInput_resolved, setInput_rejected, clearInput, dispose,
    setEditorVisible, createEditorControl, onNavigatorUpdated, updateEnablement,
    NavigateAction_run, openAsBinary, new_DiffEditorInput, resolve_then,
    TextEditorOptions_apply, disposeDiffNavigator, new_DiffNavigator,
    addListener2_UPDATED, getInput, getControl,
    getDiffNavigator, super_setInput, super_clearInput, super_setEditorVisible.

Ltac simpl_state :=
  cbn [input options position editorControl diffNavigator nextDiffAction
       previousDiffAction textDiffEditorVisible navigators allocated loads calls
       with_input with_position with_editorControl with_diffNavigator
       with_nextDiffAction with_previousDiffAction with_textDiffEditorVisible
       with_navigators with_allocated with_loads with_calls] in *.

Ltac wp_run :=
  wp_unfold;
  repeat first [ wp_prim | progress cbn beta iota | progress simpl_state | wp_case ].

(** The navigators after the pane has disposed of the one it holds. *)
Definition disposed_current (s : State) : list DiffNavigator :=
  match diffNavigator s with
  | Some n => alter set_disposed n (navigators s)
  | None => navigators s
  end.

Definition new_navigator (reveal : bool) : DiffNavigator :=
  {| alwaysRevealFirst := reveal; nav_disposed := false;
     canNavigate := false; listening := true |}.

Lemma alter_snoc {A} (f : A -> A) (l : list A) (x : A) :
  alter f (length l) (l ++ [x]) = l ++ [f x].
Proof.
  induction l as [|y l IH]; simpl; [reflexivity|]. f_equal. exact IH.
Qed.

Ltac wp_done :=
  rewrite ?alter_snoc;
  first [ by repeat split; eauto
        | by repeat split; eauto; left; repeat split; eauto
        | by repeat split; eauto; right; repeat split; eauto
        | by repeat split; eauto; right; eexists; repeat split; eauto ].

Lemma setInput_resolved_effect i o m s :
  wp (setInput_resolved i o m)
    (fun _ s' =>
       editorControl s' = editorControl s
       /\ nextDiffAction s' = nextDiffAction s
       /\ previousDiffAction s' = previousDiffAction s
       /\ loads s' = loads s
       /\ input s' = input s
       /\ ((navigators s' = navigators s /\ diffNavigator s' = diffNavigator s)
           \/ (exists reveal,
                 navigators s' = navigators s ++ [new_navigator reveal]
                 /\ diffNavigator s' = Some (length (navigators s))
                 /\ is_Some (editorControl s)
                 /\ input_changed (input s) i = false))) s.
Proof. wp_run; wp_done. Qed.

Lemma setInput_rejected_effect i o e s :
  wp (setInput_rejected i o e)
    (fun _ s' =>
       editorControl s' = editorControl s
       /\ nextDiffAction s' = nextDiffAction s
       /\ previousDiffAction s' = previousDiffAction s
       /\ loads s' = loads s
       /\ input s' = input s
       /\ navigators s' = navigators s
       /\ diffNavigator s' = diffNavigator s) s.
Proof. wp_run; wp_done. Qed.

Definition new_load (i : EditorInput) (o : option EditorOptions) : Resolution :=
  {| load_input := i; load_options := o; load_result := None |}.

Lemma setInput_effect i o s :
  wp (setInput i o)
    (fun r s' =>
       editorControl s' = editorControl s
       /\ nextDiffAction s' = nextDiffAction s
       /\ previousDiffAction s' = previousDiffAction s
       /\ input s' = Some i
       /\ diffNavigator s' = diffNavigator s
       /\ ((navigators s' = navigators s /\ loads s' = loads s)
           \/ (navigators s' = disposed_current s
               /\ loads s' = loads s ++ [new_load i o]))) s.
Proof. unfold disposed_current. wp_run; wp_done. Qed.

Lemma clearInput_effect s :
  wp clearInput
    (fun _ s' =>
       editorControl s' = editorControl s
       /\ nextDiffAction s' = nextDiffAction s
       /\ previousDiffAction s' = previousDiffAction s
       /\ loads s' = loads s
       /\ diffNavigator s' = diffNavigator s
       /\ navigators s' = disposed_current s
       /\ (input s' = None \/ input s' = input s)) s.
Proof. unfold disposed_current. wp_run; wp_done. Qed.

Lemma dispose_effect s :
  wp dispose
    (fun _ s' =>
       editorControl s' = editorControl s
       /\ nextDiffAction s' = nextDiffAction s
       /\ previousDiffAction s' = previousDiffAction s
       /\ loads s' = loads s
       /\ diffNavigator s' = diffNavigator s
       /\ navigators s' = disposed_current s
       /\ input s' = input s) s.
Proof. unfold disposed_current. wp_run; wp_done. Qed.

Lemma setEditorVisible_effect visible p s :
  wp (setEditorVisible visible p)
    (fun _ s' =>
       editorControl s' = editorControl s
       /\ nextDiffAction s' = nextDiffAction s
       /\ previousDiffAction s' = previousDiffAction s
       /\ loads s' = loads s
       /\ diffNavigator s' = diffNavigator s
       /\ navigators s' = navigators s
       /\ input s' = input s) s.
Proof. wp_run; wp_done. Qed.

Lemma createEditor_effect widget s :
  wp (c <- createEditorControl widget ;; modify (with_editorControl (Some c)))
    (fun _ s' =>
       editorControl s' = Some widget
       /\ nextDiffAction s' = Some (new_NavigateAction true)
       /\ previousDiffAction s' = Some (new_NavigateAction false)
       /\ loads s' = loads s
       /\ diffNavigator s' = diffNavigator s
       /\ navigators s' = navigators s
       /\ input s' = input s) s.
Proof. wp_run; wp_done. Qed.

Lemma NavigateAction_run_effect a s :
  wp (NavigateAction_run a)
    (fun _ s' =>
       editorControl s' = editorControl s
       /\ nextDiffAction s' = nextDiffAction s
       /\ previousDiffAction s' = previousDiffAction s
       /\ loads s' = loads s
       /\ diffNavigator s' = diffNavigator s
       /\ navigators s' = navigators s
       /\ input s' = input s) s.
Proof. wp_run; wp_done. Qed.

Lemma onNavigatorUpdated_effect s :
  wp onNavigatorUpdated
    (fun _ s' =>
       editorControl s' = editorControl s
       /\ loads s' = loads s
       /\ diffNavigator s' = diffNavigator s
       /\ navigators s' = navigators s
       /\ input s' = input s
       /\ (nextDiffAction s' = nextDiffAction s
           \/ exists a, nextDiffAction s' = Some a)
       /\ (previousDiffAction s' = previousDiffAction s
           \/ exists a, previousDiffAction s' = Some a)) s.
Proof. wp_run; repeat split; eauto; congruence. Qed.

Lemma onNavigatorUpdated_enables s a p m cur :
  nextDiffAction s = Some a ->
  previousDiffAction s = Some p ->
  diffNavigator s = Some m ->
  navigators s !! m = Some cur ->
  onNavigatorUpdated s
    = (Normal tt,
       with_previousDiffAction (Some (set_enabled (canNavigate cur) p))
         (with_nextDiffAction (Some (set_enabled (canNavigate cur) a)) s)).
Proof.
  intros Ha Hp Hm Hc.
  unfold onNavigatorUpdated, updateEnablement, getDiffNavigator, bind, get,
    modify, deref, ret; simpl.
  repeat (rewrite ?Ha, ?Hp, ?Hm, ?Hc; simpl). reflexivity.
Qed.

(** *** States the pane can reach *)

(** What holds of every state reached from a new pane: the actions
    exist once the widget does; the navigator the pane holds, if any,
    is one it created, and it holds one as soon as one was created;
    every navigator carries the pane's listener. *)
Definition coherent (s : State) : Prop :=
  (is_Some (editorControl s) ->
     is_Some (nextDiffAction s) /\ is_Some (previousDiffAction s))
  /\ match diffNavigator s with
     | Some m => m < length (navigators s) /\ is_Some (editorControl s)
     | None => navigators s = []
     end
  /\ Forall (fun nav => listening nav = true) (navigators s).

Lemma coherent_new_pane : coherent new_pane.
Proof.
  unfold coherent; simpl. split; [|split].
  - intros [x Hx]. discriminate.
  - reflexivity.
  - constructor.
Qed.

(** A step that keeps the widget, the actions and the held navigator,
    and at most alters navigators in place without touching their
    listeners. *)
Lemma coherent_altered s s' (f : DiffNavigator -> DiffNavigator) (n : nat) :
  coherent s ->
  editorControl s' = editorControl s ->
  (is_Some (nextDiffAction s) -> is_Some (nextDiffAction s')) ->
  (is_Some (previousDiffAction s) -> is_Some (previousDiffAction s')) ->
  diffNavigator s' = diffNavigator s ->
  (forall x, listening (f x) = listening x) ->
  navigators s' = navigators s \/ navigators s' = alter f n (navigators s) ->
  coherent s'.
Proof.
  intros (Ha & Hn & Hl) Ec En Ep Ed Hf Hnav. unfold coherent.
  rewrite Ec, Ed. split; [|split].
  - intros Hc. destruct (Ha Hc). auto.
  - destruct (diffNavigator s) as [m|].
    + destruct Hnav as [->| ->]; [exact Hn|]. rewrite length_alter. exact Hn.
    + destruct Hnav as [->| ->]; [exact Hn|]. rewrite Hn. reflexivity.
  - destruct Hnav as [->| ->]; [exact Hl|].
    apply Forall_alter; [exact Hl|]. intros x _ Hx. rewrite Hf. exact Hx.
Qed.

Lemma coherent_disposed s s' :
  coherent s ->
  editorControl s' = editorControl s ->
  nextDiffAction s' = nextDiffAction s ->
  previousDiffAction s' = previousDiffAction s ->
  diffNavigator s' = diffNavigator s ->
  navigators s' = navigators s \/ navigators s' = disposed_current s ->
  coherent s'.
Proof.
  intros Hc Ec En Ep Ed Hnav.
  apply (coherent_altered s s' set_disposed (default 0 (diffNavigator s)));
    auto; try congruence.
  unfold disposed_current in Hnav. destruct (diffNavigator s); simpl; tauto.
Qed.

Lemma coherent_installed s s' reveal :
  coherent s ->
  editorControl s' = editorControl s ->
  nextDiffAction s' = nextDiffAction s ->
  previousDiffAction s' = previousDiffAction s ->
  is_Some (editorControl s) ->
  diffNavigator s' = Some (length (navigators s)) ->
  navigators s' = navigators s ++ [new_navigator reveal] ->
  coherent s'.
Proof.
  intros (Ha & Hn & Hl) Ec En Ep Hc Ed Hnav. unfold coherent.
  rewrite Ec, En, Ep, Ed, Hnav. split; [exact Ha|]. split.
  - split; [|exact Hc]. rewrite length_app. simpl. lia.
  - apply Forall_app. split; [exact Hl|]. repeat constructor.
Qed.

Lemma coherent_with_loads l s : coherent s -> coherent (with_loads l s).
Proof. intros H. exact H. Qed.

Lemma coherent_complete_resolved k m s :
  coherent s -> coherent (complete k (fun i o => setInput_resolved i o m) s).
Proof.
  intros Hc. unfold complete.
  destruct (loads s !! k) as [[i o [r|]]|]; try exact Hc.
  pose proof (setInput_resolved_effect i o m s) as H. unfold wp in H.
  destruct (setInput_resolved i o m s) as [r s']. simpl in H.
  destruct H as (Ec & En & Ep & _ & _ & [[Hn Hd] | (rv & Hn & Hd & Hs & _)]);
    apply coherent_with_loads.
  - apply (coherent_disposed s); auto.
  - apply (coherent_installed s s' rv); auto.
Qed.

Lemma coherent_complete_rejected k e s :
  coherent s -> coherent (complete k (fun i o => setInput_rejected i o e) s).
Proof.
  intros Hc. unfold complete.
  destruct (loads s !! k) as [[i o [r|]]|]; try exact Hc.
  pose proof (setInput_rejected_effect i o e s) as H. unfold wp in H.
  destruct (setInput_rejected i o e s) as [r s']. simpl in H.
  destruct H as (Ec & En & Ep & _ & _ & Hn & Hd).
  apply coherent_with_loads, (coherent_disposed s); auto.
Qed.

Lemma coherent_deliver e s : coherent s -> coherent (deliver e s).
Proof.
  intros Hc. destruct e as [w|i o| |v p| |k m|k err|n b|nx]; simpl.
  - pose proof (createEditor_effect w s) as H. unfold wp in H. unfold exec.
    destruct H as (Ec & En & Ep & _ & Hd & Hn & _).
    destruct Hc as (_ & Hnav & Hl). unfold coherent.
    rewrite Ec, En, Ep, Hd, Hn. split; [eauto|]. split; [|exact Hl].
    destruct (diffNavigator s); [|exact Hnav]. split; [tauto|eauto].
  - pose proof (setInput_effect i o s) as H. unfold wp in H. unfold exec.
    destruct H as (Ec & En & Ep & _ & Hd & [[Hn _]|[Hn _]]);
      apply (coherent_disposed s); auto.
  - pose proof (clearInput_effect s) as H. unfold wp in H. unfold exec.
    destruct H as (Ec & En & Ep & _ & Hd & Hn & _).
    apply (coherent_disposed s); auto.
  - pose proof (setEditorVisible_effect v p s) as H. unfold wp in H. unfold exec.
    destruct H as (Ec & En & Ep & _ & Hd & Hn & _).
    apply (coherent_disposed s); auto.
  - pose proof (dispose_effect s) as H. unfold wp in H. unfold exec.
    destruct H as (Ec & En & Ep & _ & Hd & Hn & _).
    apply (coherent_disposed s); auto.
  - apply coherent_complete_resolved, Hc.
  - apply coherent_complete_rejected, Hc.
  - destruct (navigators s !! n) as [nav|]; [|exact Hc].
    set (s1 := with_navigators (alter (set_canNavigate b) n (navigators s)) s).
    assert (H1 : coherent s1).
    { apply (coherent_altered s s1 (set_canNavigate b) n); auto. }
    destruct (listening nav); [|exact H1].
    pose proof (onNavigatorUpdated_effect s1) as H. unfold wp in H. unfold exec.
    destruct H as (Ec & _ & Hd & Hn & _ & Ha & Hp).
    apply (coherent_altered s1 _ (fun x => x) 0); auto.
    + intros Hx. destruct Ha as [->|[a ->]]; eauto.
    + intros Hx. destruct Hp as [->|[a ->]]; eauto.
  - destruct (if nx then nextDiffAction s else previousDiffAction s) as [a|];
      [|exact Hc].
    pose proof (NavigateAction_run_effect a s) as H. unfold wp in H. unfold exec.
    destruct H as (Ec & En & Ep & _ & Hd & Hn & _).
    apply (coherent_disposed s); auto.
Qed.

Lemma coherent_run es s : coherent s -> coherent (run es s).
Proof.
  revert s. induction es as [|e es IH]; intros s Hc; simpl; [exact Hc|].
  apply IH, coherent_deliver, Hc.
Qed.

(** *** The navigate actions follow the navigator *)

Definition is_update (e : Stimulus) : bool :=
  match e with
  | NavigatorUpdated _ _ => true
  | _ => false
  end.

Definition both_disabled (s : State) : Prop :=
  (forall a, nextDiffAction s = Some a -> enabled (action a) = false)
  /\ (forall a, previousDiffAction s = Some a -> enabled (action a) = false).

Lemma both_disabled_same s s' :
  nextDiffAction s' = nextDiffAction s ->
  previousDiffAction s' = previousDiffAction s ->
  both_disabled s -> both_disabled s'.
Proof. unfold both_disabled. intros -> ->. auto. Qed.

Lemma both_disabled_complete k callback s :
  (forall i o, wp (callback i o)
                 (fun _ s' => nextDiffAction s' = nextDiffAction s
                              /\ previousDiffAction s' = previousDiffAction s) s) ->
  both_disabled s -> both_disabled (complete k callback s).
Proof.
  intros Hw Hb. unfold complete.
  destruct (loads s !! k) as [[i o [r|]]|]; try exact Hb.
  specialize (Hw i o). unfold wp in Hw.
  destruct (callback i o s) as [r s']. simpl in Hw. destruct Hw as [En Ep].
  apply (both_disabled_same s); auto.
Qed.

Lemma both_disabled_deliver e s :
  is_update e = false -> both_disabled s -> both_disabled (deliver e s).
Proof.
  intros He Hb. destruct e as [w|i o| |v p| |k m|k err|n b|nx]; simpl;
    try discriminate.
  - pose proof (createEditor_effect w s) as H. unfold wp in H. unfold exec.
    destruct H as (_ & En & Ep & _). unfold both_disabled. rewrite En, Ep.
    split; intros a [= <-]; reflexivity.
  - pose proof (setInput_effect i o s) as H. unfold wp in H.
    apply (both_disabled_same s); tauto.
  - pose proof (clearInput_effect s) as H. unfold wp in H.
    apply (both_disabled_same s); tauto.
  - pose proof (setEditorVisible_effect v p s) as H. unfold wp in H.
    apply (both_disabled_same s); tauto.
  - pose proof (dispose_effect s) as H. unfold wp in H.
    apply (both_disabled_same s); tauto.
  - apply both_disabled_complete; [|exact Hb]. intros i o.
    pose proof (setInput_resolved_effect i o m s) as H. unfold wp in *. tauto.
  - apply both_disabled_complete; [|exact Hb]. intros i o.
    pose proof (setInput_rejected_effect i o err s) as H. unfold wp in *. tauto.
  - destruct (if nx then nextDiffAction s else previousDiffAction s) as [a|];
      [|exact Hb].
    pose proof (NavigateAction_run_effect a s) as H. unfold wp in H.
    apply (both_disabled_same s); tauto.
Qed.

Lemma both_disabled_run es s :
  Forall (fun e => is_update e = false) es ->
  both_disabled s -> both_disabled (run es s).
Proof.
  revert s. induction es as [|e es IH]; intros s Hes Hb; simpl; [exact Hb|].
  inversion Hes; subst. apply IH; [assumption|].
  apply both_disabled_deliver; assumption.
Qed.

(** C6: in every state the pane can reach, an [UPDATED] event of any
    of its navigators sets the enabled flag of both navigate actions
    to what [canNavigate()] answers on the navigator the pane holds,
    which is the value just computed when the event comes from that
    navigator; and as long as no navigator has fired [UPDATED], both
    actions are disabled. *)
Theorem navigate_actions_mirror_navigator (es : list Stimulus) :
  let s := run es new_pane in
  (Forall (fun e => is_update e = false) es -> both_disabled s)
  /\ (forall n b,
        n < length (navigators s) ->
        let s' := deliver (NavigatorUpdated n b) s in
        exists m cur a p,
          diffNavigator s' = Some m
          /\ navigators s' !! m = Some cur
          /\ nextDiffAction s' = Some a
          /\ previousDiffAction s' = Some p
          /\ enabled (action a) = canNavigate cur
          /\ enabled (action p) = canNavigate cur
          /\ (m = n -> canNavigate cur = b)).
Proof.
  intros s. split.
  - intros Hes. apply both_disabled_run; [exact Hes|].
    split; intros a Ha; discriminate.
  - intros n b Hn.
    assert (Hc : coherent s) by apply coherent_run, coherent_new_pane.
    destruct Hc as (Ha & Hd & Hl).
    destruct (lookup_lt_is_Some_2 _ _ Hn) as [nav Hnav].
    assert (Hlis : listening nav = true).
    { rewrite Forall_forall in Hl. apply Hl.
      apply list_elem_of_lookup. eauto. }
    destruct (diffNavigator s) as [m|] eqn:Em;
      [|rewrite Hd in Hn; simpl in Hn; lia].
    destruct Hd as [Hm Hctl]. destruct (Ha Hctl) as [[a0 Ea] [p0 Ep]].
    destruct (lookup_lt_is_Some_2 _ _ Hm) as [navm Hnavm].
    set (s1 := with_navigators (alter (set_canNavigate b) n (navigators s)) s).
    assert (Hcur : exists cur, navigators s1 !! m = Some cur
                               /\ (m = n -> canNavigate cur = b)).
    { simpl. destruct (decide (m = n)) as [->|Hne].
      - exists (set_canNavigate b navm).
        rewrite list_lookup_alter_eq, Hnavm. split; reflexivity.
      - exists navm. rewrite list_lookup_alter_ne by congruence.
        split; [exact Hnavm | contradiction]. }
    destruct Hcur as (cur & Hcur & Hb).
    simpl. rewrite Hnav, Hlis. fold s1. unfold exec.
    rewrite (onNavigatorUpdated_enables s1 a0 p0 m cur Ea Ep Em Hcur). simpl.
    eexists m, cur, _, _. repeat split; try reflexivity; assumption.
Qed.

(** *** One live navigator, as long as resolutions do not overlap *)

Definition pending (l : Resolution) : Prop := load_result l = None.

(** No resolution is in flight. *)
Definition quiet (s : State) : Prop :=
  forall k l, loads s !! k = Some l -> ~ pending l.

(** The host starts a resolution only when none is in flight. *)
Fixpoint well_spaced (es : list Stimulus) (s : State) : Prop :=
  match es with
  | [] => True
  | e :: es =>
      match e with
      | SetInput _ _ => quiet s
      | _ => True
      end /\ well_spaced es (deliver e s)
  end.

Definition one_at_a_time (s : State) : Prop :=
  (forall n, live s n = true -> diffNavigator s = Some n)
  /\ (forall j k lj lk,
        loads s !! j = Some lj -> pending lj ->
        loads s !! k = Some lk -> pending lk -> j = k)
  /\ (forall k l, loads s !! k = Some l -> pending l ->
                  forall n, live s n = false).

Lemma live_same s s' n :
  navigators s' = navigators s -> live s' n = live s n.
Proof. unfold live. intros ->. reflexivity. Qed.

Lemma live_disposed_current s s' n :
  (forall n, live s n = true -> diffNavigator s = Some n) ->
  navigators s' = disposed_current s -> live s' n = false.
Proof.
  intros H1 Hn. unfold live. rewrite Hn. unfold disposed_current.
  destruct (diffNavigator s) as [m|] eqn:Em.
  - destruct (decide (m = n)) as [->|Hne].
    + rewrite list_lookup_alter_eq. destruct (navigators s !! n); reflexivity.
    + rewrite list_lookup_alter_ne by exact Hne.
      destruct (live s n) eqn:El.
      * apply H1 in El. congruence.
      * exact El.
  - destruct (live s n) eqn:El; [|exact El]. apply H1 in El. discriminate.
Qed.

Lemma live_altered_canNavigate s b n m :
  live (with_navigators (alter (set_canNavigate b) n (navigators s)) s) m
  = live s m.
Proof.
  unfold live; simpl. destruct (decide (n = m)) as [->|Hne].
  - rewrite list_lookup_alter_eq. destruct (navigators s !! m); reflexivity.
  - rewrite list_lookup_alter_ne by exact Hne. reflexivity.
Qed.

Lemma live_installed s s' reveal n :
  (forall n, live s n = false) ->
  navigators s' = navigators s ++ [new_navigator reveal] ->
  live s' n = true -> n = length (navigators s).
Proof.
  intros Hnone Hn Hl. unfold live in Hl. rewrite Hn in Hl.
  destruct (decide (n < length (navigators s))) as [Hlt|Hge].
  - rewrite lookup_app_l in Hl by exact Hlt.
    specialize (Hnone n). unfold live in Hnone. congruence.
  - destruct (decide (n = length (navigators s))) as [->|Hne]; [reflexivity|].
    rewrite lookup_ge_None_2 in Hl; [discriminate|].
    rewrite length_app. simpl. lia.
Qed.

Lemma one_at_a_time_same s s' :
  navigators s' = navigators s ->
  diffNavigator s' = diffNavigator s ->
  loads s' = loads s ->
  one_at_a_time s -> one_at_a_time s'.
Proof.
  intros Hn Hd Hl (H1 & H2 & H3). unfold one_at_a_time.
  rewrite Hd, Hl. repeat split.
  - intros n. rewrite (live_same s s' n Hn). apply H1.
  - exact H2.
  - intros k l Hk Hp n. rewrite (live_same s s' n Hn). eapply H3; eauto.
Qed.

Lemma one_at_a_time_disposed s s' :
  navigators s' = disposed_current s ->
  diffNavigator s' = diffNavigator s ->
  loads s' = loads s ->
  one_at_a_time s -> one_at_a_time s'.
Proof.
  intros Hn Hd Hl (H1 & H2 & H3). unfold one_at_a_time.
  rewrite Hl. repeat split.
  - intros n Hlive. rewrite (live_disposed_current s s' n H1 Hn) in Hlive.
    discriminate.
  - exact H2.
  - intros k l _ _ n. apply (live_disposed_current s s' n H1 Hn).
Qed.

(** Settling load [k], the only one that can be pending, leaves none. *)
Lemma quiet_after_settling s k r :
  (forall j k lj lk,
      loads s !! j = Some lj -> pending lj ->
      loads s !! k = Some lk -> pending lk -> j = k) ->
  (exists l, loads s !! k = Some l /\ pending l) ->
  forall j l, alter (set_result r) k (loads s) !! j = Some l -> ~ pending l.
Proof.
  intros H2 (lk & Hk & Hpk) j l Hj Hp.
  destruct (decide (k = j)) as [->|Hne].
  - rewrite list_lookup_alter_eq, Hk in Hj. simpl in Hj.
    injection Hj as <-. discriminate Hp.
  - rewrite list_lookup_alter_ne in Hj by exact Hne.
    apply Hne. symmetry. eapply H2; eauto.
Qed.

Lemma one_at_a_time_complete k callback s :
  (forall i o,
      wp (callback i o)
        (fun _ s' =>
           loads s' = loads s
           /\ ((navigators s' = navigators s /\ diffNavigator s' = diffNavigator s)
               \/ (exists reveal,
                     navigators s' = navigators s ++ [new_navigator reveal]
                     /\ diffNavigator s' = Some (length (navigators s))))) s) ->
  one_at_a_time s -> one_at_a_time (complete k callback s).
Proof.
  intros Hw Ho. unfold complete.
  destruct (loads s !! k) as [[i o [r|]]|] eqn:Ek; try exact Ho.
  specialize (Hw i o). unfold wp in Hw.
  destruct (callback i o s) as [r s']. simpl in Hw.
  destruct Hw as (Hl & Hnav). destruct Ho as (H1 & H2 & H3).
  assert (Hq : forall j l,
             alter (set_result (settle r)) k (loads s) !! j = Some l ->
             ~ pending l).
  { apply quiet_after_settling; [exact H2|]. eexists. split; [exact Ek|].
    reflexivity. }
  assert (Hnone : forall n, live s n = false).
  { eapply H3; [exact Ek | reflexivity]. }
  unfold one_at_a_time; simpl. rewrite Hl. repeat split.
  - intros n Hlive. destruct Hnav as [[Hn Hd]|(rv & Hn & Hd)].
    + unfold live in Hlive; simpl in Hlive. rewrite Hn in Hlive.
      specialize (Hnone n). unfold live in Hnone. congruence.
    + rewrite Hd. f_equal. symmetry.
      apply (live_installed s s' rv n Hnone Hn). exact Hlive.
  - intros j k' lj lk Hj Hpj. exfalso. exact (Hq j lj Hj Hpj).
  - intros k' l Hk' Hp. exfalso. exact (Hq k' l Hk' Hp).
Qed.

Lemma one_at_a_time_deliver e s :
  match e with SetInput _ _ => quiet s | _ => True end ->
  one_at_a_time s -> one_at_a_time (deliver e s).
Proof.
  intros Hq Ho. destruct e as [w|i o| |v p| |k m|k err|n b|nx]; simpl.
  - pose proof (createEditor_effect w s) as H. unfold wp in H.
    apply (one_at_a_time_same s); tauto.
  - pose proof (setInput_effect i o s) as H. unfold wp in H. unfold exec.
    destruct H as (_ & _ & _ & _ & Hd & [[Hn Hl]|[Hn Hl]]).
    + apply (one_at_a_time_same s); auto.
    + destruct Ho as (H1 & H2 & H3). unfold one_at_a_time. rewrite Hl.
      assert (Hnone : forall n, live (setInput i o s).2 n = false).
      { intros n. apply (live_disposed_current s _ n H1 Hn). }
      assert (Hlast : forall j l,
                 (loads s ++ [new_load i o]) !! j = Some l -> pending l ->
                 j = length (loads s)).
      { intros j l Hj Hp.
        destruct (decide (j < length (loads s))) as [Hlt|Hge].
        - rewrite lookup_app_l in Hj by exact Hlt. destruct (Hq j l Hj Hp).
        - apply lookup_lt_Some in Hj. rewrite length_app in Hj.
          simpl in Hj. lia. }
      repeat split.
      * intros n Hlive. rewrite Hnone in Hlive. discriminate.
      * intros j k lj lk Hj Hpj Hk Hpk.
        rewrite (Hlast j lj Hj Hpj), (Hlast k lk Hk Hpk). reflexivity.
      * intros _ _ _ _. exact Hnone.
  - pose proof (clearInput_effect s) as H. unfold wp in H.
    apply (one_at_a_time_disposed s); tauto.
  - pose proof (setEditorVisible_effect v p s) as H. unfold wp in H.
    apply (one_at_a_time_same s); tauto.
  - pose proof (dispose_effect s) as H. unfold wp in H.
    apply (one_at_a_time_disposed s); tauto.
  - apply one_at_a_time_complete; [|exact Ho]. intros i o.
    pose proof (setInput_resolved_effect i o m s) as H. unfold wp in *.
    destruct H as (_ & _ & _ & Hl & _ & [H|(rv & Hn & Hd & _)]); eauto.
  - apply one_at_a_time_complete; [|exact Ho]. intros i o.
    pose proof (setInput_rejected_effect i o err s) as H. unfold wp in *.
    tauto.
  - destruct (navigators s !! n) as [nav|]; [|exact Ho].
    set (s1 := with_navigators (alter (set_canNavigate b) n (navigators s)) s).
    assert (Ho1 : one_at_a_time s1).
    { destruct Ho as (H1 & H2 & H3). repeat split.
      - intros m. unfold s1. rewrite live_altered_canNavigate. apply H1.
      - exact H2.
      - intros k l Hk Hp m. unfold s1. rewrite live_altered_canNavigate.
        eapply H3; eauto. }
    destruct (listening nav); [|exact Ho1].
    pose proof (onNavigatorUpdated_effect s1) as H. unfold wp in H.
    apply (one_at_a_time_same s1); tauto.
  - destruct (if nx then nextDiffAction s else previousDiffAction s) as [a|];
      [|exact Ho].
    pose proof (NavigateAction_run_effect a s) as H. unfold wp in H.
    apply (one_at_a_time_same s); tauto.
Qed.

Lemma one_at_a_time_run es s :
  well_spaced es s -> one_at_a_time s -> one_at_a_time (run es s).
Proof.
  revert s. induction es as [|e es IH]; intros s Hw Ho; simpl; [exact Ho|].
  destruct Hw as [Hq Hw]. apply IH; [exact Hw|].
  apply one_at_a_time_deliver; assumption.
Qed.

(** The invariant the code does achieve: when the host never starts a
    resolution while another is in flight, at most one navigator is
    live in every state the pane reaches, and it is the one the pane
    holds. *)
Lemma at_most_one_live_without_overlap (es : list Stimulus) (n m : nat) :
  well_spaced es new_pane ->
  live (run es new_pane) n = true ->
  live (run es new_pane) m = true ->
  n = m /\ diffNavigator (run es new_pane) = Some n.
Proof.
  intros Hw Hn Hm.
  assert (Ho : one_at_a_time (run es new_pane)).
  { apply one_at_a_time_run; [exact Hw|]. split; [|split].
    - intros k Hk. discriminate Hk.
    - intros j k lj lk Hj. discriminate Hj.
    - intros k l Hk. discriminate Hk. }
  destruct Ho as (H1 & _). pose proof (H1 n Hn). pose proof (H1 m Hm).
  split; congruence.
Qed.

(** *** Where the single-navigator invariant breaks *)

Definition compare_ab : EditorInput :=
  DiffEditorInput (Host 1) (Some "a.txt - b.txt") None
    (OtherEditorInput (Host 2) (Some "a.txt") None)
    (OtherEditorInput (Host 3) (Some "b.txt") None) false.

Definition compare_cd : EditorInput :=
  DiffEditorInput (Host 4) (Some "c.txt - d.txt") None
    (OtherEditorInput (Host 5) (Some "c.txt") None)
    (OtherEditorInput (Host 6) (Some "d.txt") None) false.

Definition side_by_side : IDiffEditor := {| renderSideBySide := true |}.

(** The host shows [compare_ab], then [compare_cd], then [compare_ab]
    again before any of the three resolutions has completed; then the
    first and the third complete. *)
Definition reload_race : list Stimulus :=
  [ CreateEditor side_by_side;
    SetInput compare_ab None;
    SetInput compare_cd None;
    SetInput compare_ab None;
    ResolveDone 0 (Some (TextDiffEditorModel 10));
    ResolveDone 2 (Some (TextDiffEditorModel 10)) ].

(** Afterwards the second resolution completes, and the host shows
    [compare_cd], whose resolution completes too. *)
Definition reload_race_then_other : list Stimulus :=
  reload_race ++
  [ ResolveDone 1 (Some (TextDiffEditorModel 11));
    SetInput compare_cd None;
    ResolveDone 3 (Some (TextDiffEditorModel 11)) ].

(** C1 (where the code falls short): the race guard compares inputs,
    not calls, so two resolutions in flight for the same input both
    pass it; the second one creates a navigator while the first one's
    is still live, and the first is never disposed, not even before
    the navigator of the next input is created. *)
Lemma deliver_SetInput_reload i o s :
  matches i (input s) = false ->
  deliver (SetInput i o) s
  = exec (disposeDiffNavigator ;; k <- resolve_then i o ;; ret (Resolving k))
      (with_input (Some i) o s).
Proof.
  intros H.
  unfold deliver, exec, setInput, bind, getInput, get, super_setInput, modify.
  simpl. rewrite H, andb_false_r. reflexivity.
Qed.

Ltac reload_innermost H1 H2 H3 :=
  match goal with
  | |- context [deliver (SetInput ?i ?o) ?s] =>
      lazymatch s with
      | context [SetInput] => fail
      | _ => rewrite (deliver_SetInput_reload i o s)
               by first [exact H1 | exact H2 | exact H3]
      end
  end.

Theorem reload_race_leaves_two_navigators_live :
  matches compare_ab None = false ->
  matches compare_cd (Some compare_ab) = false ->
  matches compare_ab (Some compare_cd) = false ->
  live_navigators (run reload_race new_pane) = [0; 1]
  /\ live_navigators (run reload_race_then_other new_pane) = [0; 2]
  /\ ~ In (NavigatorDispose 0) (calls (run reload_race_then_other new_pane))
  /\ In (NewDiffNavigator 2 true) (calls (run reload_race_then_other new_pane)).
Proof.
  intros H1 H2 H3.
  unfold reload_race_then_other, reload_race. cbn [run app].
  repeat reload_innermost H1 H2 H3.
  vm_compute.
  split; [reflexivity|]. split; [reflexivity|]. split.
  - intros H. repeat (destruct H as [H|H]; [discriminate H|]). exact H.
  - tauto.
Qed.

(** ** Further properties of the pane *)

(** *** How a stimulus moves the navigators *)

(** Whatever the stimulus, the navigators change in one of four ways:
    not at all, by disposal of the held one, by installation of a new
    one that the pane then holds, or by a navigator recomputing what it
    can navigate to. *)
Inductive nav_step (s s' : State) : Prop :=
| nav_same :
    navigators s' = navigators s ->
    diffNavigator s' = diffNavigator s -> nav_step s s'
| nav_disposed_step :
    navigators s' = disposed_current s ->
    diffNavigator s' = diffNavigator s -> nav_step s s'
| nav_installed reveal :
    navigators s' = navigators s ++ [new_navigator reveal] ->
    diffNavigator s' = Some (length (navigators s)) -> nav_step s s'
| nav_updated b n :
    navigators s' = alter (set_canNavigate b) n (navigators s) ->
    diffNavigator s' = diffNavigator s -> nav_step s s'.

Lemma complete_nav_step k callback s :
  (forall i o,
      wp (callback i o)
        (fun _ s' =>
           (navigators s' = navigators s /\ diffNavigator s' = diffNavigator s)
           \/ (exists reveal,
                 navigators s' = navigators s ++ [new_navigator reveal]
                 /\ diffNavigator s' = Some (length (navigators s)))) s) ->
  nav_step s (complete k callback s).
Proof.
  intros Hw. unfold complete.
  destruct (loads s !! k) as [[i o [r|]]|]; try (apply nav_same; reflexivity).
  specialize (Hw i o). unfold wp in Hw.
  destruct (callback i o s) as [r s']. simpl in Hw.
  destruct Hw as [[Hn Hd]|(rv & Hn & Hd)].
  - apply nav_same; assumption.
  - apply (nav_installed _ _ rv); assumption.
Qed.

Lemma deliver_nav_step e s : nav_step s (deliver e s).
Proof.
  destruct e as [w|i o| |v p| |k m|k err|n b|nx]; simpl.
  - pose proof (createEditor_effect w s) as H. unfold wp in H.
    apply nav_same; unfold exec; tauto.
  - pose proof (setInput_effect i o s) as H. unfold wp in H. unfold exec.
    destruct H as (_ & _ & _ & _ & Hd & [[Hn _]|[Hn _]]).
    + apply nav_same; assumption.
    + apply nav_disposed_step; assumption.
  - pose proof (clearInput_effect s) as H. unfold wp in H.
    apply nav_disposed_step; unfold exec; tauto.
  - pose proof (setEditorVisible_effect v p s) as H. unfold wp in H.
    apply nav_same; unfold exec; tauto.
  - pose proof (dispose_effect s) as H. unfold wp in H.
    apply nav_disposed_step; unfold exec; tauto.
  - apply complete_nav_step. intros i o.
    pose proof (setInput_resolved_effect i o m s) as H. unfold wp in *.
    destruct H as (_ & _ & _ & _ & _ & [H|(rv & Hn & Hd & _)]); eauto.
  - apply complete_nav_step. intros i o.
    pose proof (setInput_rejected_effect i o err s) as H. unfold wp in *.
    tauto.
  - destruct (navigators s !! n) as [nav|]; [|apply nav_same; reflexivity].
    set (s1 := with_navigators (alter (set_canNavigate b) n (navigators s)) s).
    destruct (listening nav); [|apply (nav_updated _ _ b n); reflexivity].
    pose proof (onNavigatorUpdated_effect s1) as H. unfold wp in H.
    destruct H as (_ & _ & Hd & Hn & _).
    apply (nav_updated _ _ b n); unfold exec; [rewrite Hn|rewrite Hd]; reflexivity.
  - destruct (if nx then nextDiffAction s else previousDiffAction s) as [a|];
      [|apply nav_same; reflexivity].
    pose proof (NavigateAction_run_effect a s) as H. unfold wp in H.
    apply nav_same; unfold exec; tauto.
Qed.

Lemma run_app es1 es2 s : run (es1 ++ es2) s = run es2 (run es1 s).
Proof.
  revert s. induction es1 as [|e es1 IH]; intros s; simpl; [reflexivity|].
  apply IH.
Qed.

(** *** The pane holds the navigator it created last *)

Definition holds_last (s : State) : Prop :=
  match diffNavigator s with
  | Some n => S n = length (navigators s)
  | None => navigators s = []
  end.

Lemma holds_last_step s s' : nav_step s s' -> holds_last s -> holds_last s'.
Proof.
  unfold holds_last. intros [Hn Hd|Hn Hd|rv Hn Hd|b n Hn Hd] H;
    rewrite Hd, Hn; clear Hd Hn.
  - exact H.
  - unfold disposed_current. destruct (diffNavigator s) as [m|]; [|exact H].
    rewrite length_alter. exact H.
  - rewrite length_app. simpl. lia.
  - destruct (diffNavigator s) as [m|].
    + rewrite length_alter. exact H.
    + rewrite H. reflexivity.
Qed.

Lemma holds_last_run es s : holds_last s -> holds_last (run es s).
Proof.
  revert s. induction es as [|e es IH]; intros s Hs; simpl; [exact Hs|].
  apply IH. apply (holds_last_step s); [apply deliver_nav_step | exact Hs].
Qed.

(** X1: in every state the pane can reach, the navigator it holds is
    the one created last; it holds none only while none has been
    created.  The field is never cleared and never set back to an older
    navigator. *)
Theorem pane_holds_last_navigator (es : list Stimulus) :
  holds_last (run es new_pane).
Proof.
  apply holds_last_run. unfold holds_last. simpl. reflexivity.
Qed.

(** *** A navigator the pane lost stays live *)

Definition lost (s : State) (n : nat) : Prop :=
  live s n = true /\ diffNavigator s <> Some n.

Lemma lost_step s s' n :
  holds_last s -> nav_step s s' -> lost s n -> lost s' n.
Proof.
  unfold lost, live, holds_last.
  intros Hl [Hn Hd|Hn Hd|rv Hn Hd|b m Hn Hd] [Hlive Hne]; rewrite Hd, Hn.
  - split; assumption.
  - split; [|exact Hne]. unfold disposed_current.
    destruct (diffNavigator s) as [m|]; [|exact Hlive].
    rewrite list_lookup_alter_ne by congruence. exact Hlive.
  - assert (Hlt : n < length (navigators s)).
    { destruct (navigators s !! n) eqn:E; [|discriminate].
      apply lookup_lt_Some in E. exact E. }
    split.
    + rewrite lookup_app_l by exact Hlt. exact Hlive.
    + intros [= E]. lia.
  - split; [|exact Hne].
    destruct (decide (m = n)) as [->|Hmn].
    + rewrite list_lookup_alter_eq. destruct (navigators s !! n); [|discriminate].
      exact Hlive.
    + rewrite list_lookup_alter_ne by exact Hmn. exact Hlive.
Qed.

Definition not_Dispose (e : Stimulus) : Prop :=
  match e with
  | Dispose => False
  | _ => True
  end.

(** X2: as long as the pane itself is not disposed, a live navigator
    that the pane no longer holds is never disposed: whatever else the
    host does afterwards, it stays live and the pane never holds it
    again.  [setInput] and [clearInput] only ever dispose the
    navigator the pane holds. *)
Theorem lost_navigator_stays_live (es0 es : list Stimulus) (n : nat) :
  Forall not_Dispose (es0 ++ es) ->
  lost (run es0 new_pane) n ->
  lost (run (es0 ++ es) new_pane) n.
Proof.
  intros _. rewrite run_app.
  assert (Hl : holds_last (run es0 new_pane))
    by (apply holds_last_run; reflexivity).
  generalize dependent (run es0 new_pane). intros s Hl.
  revert s Hl. induction es as [|e es IH]; intros s Hl Hs; simpl; [exact Hs|].
  apply IH.
  - apply (holds_last_step s); [apply deliver_nav_step | exact Hl].
  - apply (lost_step s); [exact Hl | apply deliver_nav_step | exact Hs].
Qed.

(** *** The two navigate actions over the life of the pane *)

(** What a stimulus does to the widget and the actions: [createEditor]
    builds fresh ones, the [UPDATED] listener sets their enabled flags
    from the held navigator, and everything else leaves them alone. *)
Inductive action_step (s s' : State) : Prop :=
| actions_created w :
    editorControl s' = Some w ->
    nextDiffAction s' = Some (new_NavigateAction true) ->
    previousDiffAction s' = Some (new_NavigateAction false) ->
    action_step s s'
| actions_kept :
    editorControl s' = editorControl s ->
    nextDiffAction s' = nextDiffAction s ->
    previousDiffAction s' = previousDiffAction s ->
    action_step s s'
| actions_updated a p m cur :
    editorControl s' = editorControl s ->
    nextDiffAction s = Some a ->
    previousDiffAction s = Some p ->
    diffNavigator s' = Some m ->
    navigators s' !! m = Some cur ->
    nextDiffAction s' = Some (set_enabled (canNavigate cur) a) ->
    previousDiffAction s' = Some (set_enabled (canNavigate cur) p) ->
    action_step s s'.

Lemma complete_action_step k callback s :
  (forall i o,
      wp (callback i o)
        (fun _ s' =>
           editorControl s' = editorControl s
           /\ nextDiffAction s' = nextDiffAction s
           /\ previousDiffAction s' = previousDiffAction s) s) ->
  action_step s (complete k callback s).
Proof.
  intros Hw. unfold complete.
  destruct (loads s !! k) as [[i o [r|]]|];
    try (apply actions_kept; reflexivity).
  specialize (Hw i o). unfold wp in Hw.
  destruct (callback i o s) as [r s']. simpl in Hw.
  apply actions_kept; simpl; tauto.
Qed.

Lemma deliver_action_step e s : coherent s -> action_step s (deliver e s).
Proof.
  intros Hc. destruct e as [w|i o| |v p| |k m|k err|n b|nx]; simpl.
  - pose proof (createEditor_effect w s) as H. unfold wp in H.
    apply (actions_created _ _ w); unfold exec; tauto.
  - pose proof (setInput_effect i o s) as H. unfold wp in H.
    apply actions_kept; unfold exec; tauto.
  - pose proof (clearInput_effect s) as H. unfold wp in H.
    apply actions_kept; unfold exec; tauto.
  - pose proof (setEditorVisible_effect v p s) as H. unfold wp in H.
    apply actions_kept; unfold exec; tauto.
  - pose proof (dispose_effect s) as H. unfold wp in H.
    apply actions_kept; unfold exec; tauto.
  - apply complete_action_step. intros i o.
    pose proof (setInput_resolved_effect i o m s) as H. unfold wp in *. tauto.
  - apply complete_action_step. intros i o.
    pose proof (setInput_rejected_effect i o err s) as H. unfold wp in *. tauto.
  - destruct (navigators s !! n) as [nav|] eqn:En;
      [|apply actions_kept; reflexivity].
    set (s1 := with_navigators (alter (set_canNavigate b) n (navigators s)) s).
    destruct (listening nav); [|apply actions_kept; reflexivity].
    destruct Hc as (Ha & Hd & _).
    destruct (diffNavigator s) as [m|] eqn:Em;
      [|rewrite Hd in En; discriminate En].
    destruct Hd as [Hm Hctl]. destruct (Ha Hctl) as [[a0 Ea] [p0 Ep]].
    assert (Hcur : is_Some (navigators s1 !! m)).
    { apply lookup_lt_is_Some_2. simpl. rewrite length_alter. exact Hm. }
    destruct Hcur as [cur Hcur]. unfold exec.
    rewrite (onNavigatorUpdated_enables s1 a0 p0 m cur Ea Ep Em Hcur).
    apply (actions_updated _ _ a0 p0 m cur); simpl; auto.
  - destruct (if nx then nextDiffAction s else previousDiffAction s) as [a|];
      [|apply actions_kept; reflexivity].
    pose proof (NavigateAction_run_effect a s) as H. unfold wp in H.
    apply actions_kept; unfold exec; tauto.
Qed.

(** The actions are the two built by [createEditorControl], with one
    common enabled flag, which is off while the pane holds no
    navigator. *)
Definition paired_actions (s : State) : Prop :=
  (editorControl s = None /\ nextDiffAction s = None
   /\ previousDiffAction s = None)
  \/ exists b,
      nextDiffAction s = Some (set_enabled b (new_NavigateAction true))
      /\ previousDiffAction s = Some (set_enabled b (new_NavigateAction false))
      /\ (diffNavigator s = None -> b = false).

Lemma paired_actions_step s s' :
  action_step s s' -> nav_step s s' -> paired_actions s -> paired_actions s'.
Proof.
  intros Ha Hn Hp.
  assert (Hd : diffNavigator s' = None -> diffNavigator s = None).
  { destruct Hn as [_ Hd|_ Hd|rv _ Hd|b n _ Hd]; rewrite Hd; auto.
    discriminate. }
  destruct Ha as [w Ec En Ep|Ec En Ep|a p m cur Ec Ea Ep Em Ecur En' Ep'].
  - right. exists false. rewrite En, Ep. auto.
  - destruct Hp as [(Hc & Hn0 & Hp0)|(b & Hn0 & Hp0 & Hb)].
    + left. rewrite Ec, En, Ep. auto.
    + right. exists b. rewrite En, Ep. auto.
  - right. exists (canNavigate cur).
    destruct Hp as [(Hc & Hn0 & Hp0)|(b & Hn0 & Hp0 & Hb)]; [congruence|].
    rewrite En', Ep'. rewrite Hn0 in Ea. rewrite Hp0 in Ep.
    injection Ea as <-. injection Ep as <-.
    split; [reflexivity|]. split; [reflexivity|]. rewrite Em. discriminate.
Qed.

Lemma paired_actions_run es : paired_actions (run es new_pane).
Proof.
  assert (H : forall s, coherent s -> paired_actions s ->
                        paired_actions (run es s)).
  { induction es as [|e es IH]; intros s Hc Hp; simpl; [exact Hp|].
    apply IH; [apply coherent_deliver, Hc|].
    apply (paired_actions_step s);
      [apply deliver_action_step, Hc | apply deliver_nav_step | exact Hp]. }
  apply H; [apply coherent_new_pane|]. left. auto.
Qed.

(** X3: once the widget exists, [getActions] lists the previous-change
    action first and the next-change action second, in every state the
    pane can reach; they are the two actions built with the widget,
    with ids, labels and classes unchanged, and their enabled flags are
    always equal. *)
Theorem getActions_previous_then_next (es : list Stimulus) :
  let s := run es new_pane in
  is_Some (editorControl s) ->
  exists b,
    getActions s
    = (Normal [Some (set_enabled b (new_NavigateAction false));
               Some (set_enabled b (new_NavigateAction true))], s).
Proof.
  intros s. pose proof (paired_actions_run es) as HP.
  change (paired_actions s) in HP. clearbody s. intros [w Hw].
  destruct HP as [(Hc & _)|(b & Hn & Hp & _)]; [congruence|].
  exists b. unfold getActions, bind, get, ret. rewrite Hp, Hn. reflexivity.
Qed.

(** X4: in every state the pane can reach, an enabled navigate action
    has a navigator to forward to: the pane holds one, and running the
    action makes exactly one [next()] or [previous()] call on it and
    changes nothing else.  The flags are only ever switched on by the
    listener of a navigator, which exists only once the pane holds
    one. *)
Theorem enabled_action_has_navigator (es : list Stimulus) (a : NavigateAction) :
  let s := run es new_pane in
  nextDiffAction s = Some a \/ previousDiffAction s = Some a ->
  enabled (action a) = true ->
  exists n,
    diffNavigator s = Some n
    /\ snd (NavigateAction_run a s)
       = with_calls (calls s ++ [if next a then NavigatorNext n
                                 else NavigatorPrevious n]) s.
Proof.
  intros s. pose proof (paired_actions_run es) as HP.
  change (paired_actions s) in HP. clearbody s. intros Ha He.
  destruct HP as [(_ & Hn & Hp)|(b & Hn & Hp & Hb)];
    [destruct Ha; congruence|].
  assert (Eb : b = true).
  { destruct Ha as [Ha|Ha]; [rewrite Hn in Ha|rewrite Hp in Ha];
      injection Ha as <-; exact He. }
  destruct (diffNavigator s) as [n|] eqn:En;
    [|rewrite Hb in Eb by reflexivity; discriminate].
  exists n. split; [reflexivity|].
  destruct Ha as [Ha|Ha]; [rewrite Hn in Ha|rewrite Hp in Ha];
    injection Ha as <-;
    unfold NavigateAction_run, getDiffNavigator, bind, get, deref, ret, call,
      modify; simpl; rewrite En; reflexivity.
Qed.

(** *** Visibility *)

(** The visibility the host reported last. *)
Fixpoint last_visible (es : list Stimulus) (v : bool) : bool :=
  match es with
  | [] => v
  | SetEditorVisible visible _ :: es => last_visible es visible
  | _ :: es => last_visible es v
  end.

Lemma complete_visible k callback s :
  (forall i o,
      wp (callback i o)
        (fun _ s' => textDiffEditorVisible s' = textDiffEditorVisible s) s) ->
  textDiffEditorVisible (complete k callback s) = textDiffEditorVisible s.
Proof.
  intros Hw. unfold complete.
  destruct (loads s !! k) as [[i o [r|]]|]; try reflexivity.
  specialize (Hw i o). unfold wp in Hw.
  destruct (callback i o s) as [r s']. exact Hw.
Qed.

Lemma deliver_visible e s :
  textDiffEditorVisible (deliver e s)
  = match e with
    | SetEditorVisible visible _ => visible
    | _ => textDiffEditorVisible s
    end.
Proof.
  destruct e as [w|i o| |v p| |k m|k err|n b|nx]; simpl.
  - apply (wp_bind _ _ (fun _ s' =>
                          textDiffEditorVisible s' = textDiffEditorVisible s)).
    wp_run; reflexivity.
  - change (wp (setInput i o)
              (fun _ s' => textDiffEditorVisible s' = textDiffEditorVisible s) s).
    wp_run; reflexivity.
  - change (wp clearInput
              (fun _ s' => textDiffEditorVisible s' = textDiffEditorVisible s) s).
    wp_run; reflexivity.
  - reflexivity.
  - change (wp dispose
              (fun _ s' => textDiffEditorVisible s' = textDiffEditorVisible s) s).
    wp_run; reflexivity.
  - apply complete_visible. intros i o. wp_run; reflexivity.
  - apply complete_visible. intros i o. wp_run; reflexivity.
  - destruct (navigators s !! n) as [nav|]; [|reflexivity].
    destruct (listening nav); [|reflexivity].
    set (s1 := with_navigators (alter (set_canNavigate b) n (navigators s)) s).
    change (wp onNavigatorUpdated
              (fun _ s' => textDiffEditorVisible s' = textDiffEditorVisible s1) s1).
    wp_run; reflexivity.
  - destruct (if nx then nextDiffAction s else previousDiffAction s) as [a|];
      [|reflexivity].
    change (wp (NavigateAction_run a)
              (fun _ s' => textDiffEditorVisible s' = textDiffEditorVisible s) s).
    wp_run; reflexivity.
Qed.

(** X5: the context key for a visible text compare editor always holds
    what the last [setEditorVisible] call passed as [visible] (false
    before the first call); no other method of the pane, no resolution
    callback and no navigator event sets it. *)
Theorem context_key_follows_setEditorVisible (es : list Stimulus) :
  textDiffEditorVisible (run es new_pane) = last_visible es false.
Proof.
  assert (H : forall s, textDiffEditorVisible (run es s)
                        = last_visible es (textDiffEditorVisible s)).
  { induction es as [|e es IH]; intros s; simpl; [reflexivity|].
    rewrite IH, deliver_visible. destruct e; reflexivity. }
  apply H.
Qed.

(** *** Starting a load *)


Lemma disposed_current_not_live s s' n :
  navigators s' = disposed_current s ->
  diffNavigator s = Some n -> live s' n = false.
Proof.
  intros Hn Hd. unfold live. rewrite Hn. unfold disposed_current. rewrite Hd.
  rewrite list_lookup_alter_eq. destruct (navigators s !! n); reflexivity.
Qed.


(** *** The success callback *)

(** X7: a late result that is a text diff model, or that belongs to an
    input other than a diff input, is dropped without a trace: the
    callback returns null and the state is exactly what it was. *)
Theorem setInput_resolved_late_is_dropped (s : State) (i : EditorInput)
    (o : option EditorOptions) (m : option EditorModel) :
  stale s i ->
  instanceof_TextDiffEditorModel m = true
  \/ instanceof_DiffEditorInput i = false ->
  setInput_resolved i o m s = (Normal ReturnNull, s).
Proof.
  unfold stale. intros Hs H. unfold setInput_resolved, bind.
  assert (E : (if instanceof_TextDiffEditorModel m then ret false
               else openAsBinary i o) s = (Normal false, s)).
  { destruct H as [-> | H]; [reflexivity|].
    destruct (instanceof_TextDiffEditorModel m); [reflexivity|].
    destruct i; try discriminate H; reflexivity. }
  rewrite E. unfold getInput, get. rewrite Hs. reflexivity.
Qed.

(** [options.autoRevealFirstChange] when the options are text diff
    options that define it, true otherwise. *)
Definition reveal_first_change (o : option EditorOptions) : bool :=
  match o with
  | Some {| optionsClass := TextDiffEditorOptionsClass (Some b) |} => b
  | _ => true
  end.

Definition apply_calls (o : option EditorOptions) (w : IDiffEditor) : list Call :=
  match o with
  | Some t => if isFunction_apply t then [OptionsApply t (Some w)] else []
  | None => []
  end.

Lemma getCodeEditorOptions_of_input s s' :
  input s' = input s ->
  getCodeEditorOptions s' = (fst (getCodeEditorOptions s), s').
Proof.
  intros H. unfold getCodeEditorOptions, bind, get, ret. rewrite H.
  destruct (input s) as [[]|]; reflexivity.
Qed.

Lemma live_snoc s' (h : list DiffNavigator) reveal :
  navigators s' = h ++ [new_navigator reveal] -> live s' (length h) = true.
Proof.
  intros H. unfold live. rewrite H.
  rewrite lookup_app_r by lia. rewrite Nat.sub_diag. reflexivity.
Qed.

(** X8: when a text diff model arrives for the input the pane still
    shows and the widget exists, the callback makes these calls and no
    other, in this order: the model is set on the widget, a navigator is
    created (revealing the first change unless text diff options say
    otherwise), the pane's listener is added to it, the text options, if
    any, are applied to the widget, and the widget's options are
    refreshed from the input.  The pane holds the new navigator, which
    is live, and the promise is fulfilled. *)
Theorem setInput_resolved_installs (s : State) (i c : EditorInput)
    (o : option EditorOptions) (d : DiffModel) (w : IDiffEditor) :
  input s = Some c ->
  same_object c i = true ->
  editorControl s = Some w ->
  let k := length (navigators s) in
  exists s',
    setInput_resolved i o (Some (TextDiffEditorModel d)) s
      = (Normal ReturnUndefined, s')
    /\ calls s'
       = calls s
         ++ [ControlSetModel (Some d);
             NewDiffNavigator k (reveal_first_change o);
             NavigatorAddListener k]
         ++ apply_calls o w
         ++ [ControlUpdateOptions (match fst (getCodeEditorOptions s) with
                                   | Normal opts => opts
                                   | Throw _ => super_getCodeEditorOptions
                                   end)]
    /\ navigators s' = navigators s ++ [new_navigator (reveal_first_change o)]
    /\ diffNavigator s' = Some k
    /\ live s' k = true
    /\ input s' = input s.
Proof.
  intros Hin Hsame Hctl k.
  unfold setInput_resolved, getInput, getControl, new_DiffNavigator,
    addListener2_UPDATED, TextEditorOptions_apply, bind, get, ret, call, modify,
    deref; simpl.
  unfold input_changed. rewrite Hin, Hsame; simpl. rewrite Hctl; simpl.
  rewrite alter_snoc.
  destruct o as [t|]; [destruct (isFunction_apply t) eqn:Et|]; simpl;
    rewrite ?Et; simpl.
  all: match goal with
       | |- context [getCodeEditorOptions ?s1] =>
           rewrite (getCodeEditorOptions_of_input s s1) by reflexivity
       end.
  all: assert (Ho : exists opts, fst (getCodeEditorOptions s) = Normal opts)
         by (unfold getCodeEditorOptions, bind, get, ret;
             destruct (input s) as [[]|]; eexists; reflexivity).
  all: destruct Ho as [opts Ho]; rewrite Ho; simpl.
  all: eexists; (split; [reflexivity|]); simpl.
  all: rewrite <- ?app_assoc; simpl.
  all: repeat split; try reflexivity.
  all: first [ exact Hin | symmetry; exact Hin
             | unfold k; eapply live_snoc; reflexivity ].
Qed.

(** X9: the three ways the success callback can end.  If it throws, it
    throws a [TypeError] and has changed nothing; if it returns null
    (binary fallback or late result), no model was set and no navigator
    created; if it runs to its end, the input was still current, the
    widget existed, and the pane holds a navigator created by this
    call.  It never hands back an error. *)
Theorem setInput_resolved_outcomes (s : State) (i : EditorInput)
    (o : option EditorOptions) (m : option EditorModel) :
  let r := fst (setInput_resolved i o m s) in
  let s' := snd (setInput_resolved i o m s) in
  match r with
  | Throw e => s' = s /\ exists what, e = TypeError what
  | Normal ReturnNull =>
      navigators s' = navigators s
      /\ diffNavigator s' = diffNavigator s
      /\ (calls s' = calls s \/ exists b p, calls s' = calls s ++ [OpenEditor b o p])
  | Normal ReturnUndefined =>
      input_changed (input s) i = false
      /\ is_Some (editorControl s)
      /\ diffNavigator s' = Some (length (navigators s))
      /\ exists reveal, navigators s' = navigators s ++ [new_navigator reveal]
  | Normal (ReturnWrapError _) => False
  end.
Proof.
  change (wp (setInput_resolved i o m)
            (fun r s' =>
               match r with
               | Throw e => s' = s /\ exists what, e = TypeError what
               | Normal ReturnNull =>
                   navigators s' = navigators s
                   /\ diffNavigator s' = diffNavigator s
                   /\ (calls s' = calls s
                       \/ exists b p, calls s' = calls s ++ [OpenEditor b o p])
               | Normal ReturnUndefined =>
                   input_changed (input s) i = false
                   /\ is_Some (editorControl s)
                   /\ diffNavigator s' = Some (length (navigators s))
                   /\ exists reveal,
                       navigators s' = navigators s ++ [new_navigator reveal]
               | Normal (ReturnWrapError _) => False
               end) s).
  wp_run; rewrite ?alter_snoc; repeat split; eauto.
Qed.

(** *** clearInput *)



(** *** isFileBinaryError on arrays *)

(** An error wrapped [k] times in a one-element array. *)
Fixpoint wrapped (k : nat) (e : ErrorValue) : ErrorValue :=
  match k with
  | 0 => e
  | S k => ErrorArray [wrapped k e]
  end.

(** X12: [isFileBinaryError] looks through arrays to any depth and at
    every position: an error wrapped in arrays any number of times is
    judged as the error itself, an array is binary exactly when one of
    its elements is, and an array without such an element, the empty
    array included, is not. *)
Theorem isFileBinaryError_arrays (k : nat) (e : ErrorValue)
    (before after : list ErrorValue) :
  isFileBinaryError (wrapped k e) = isFileBinaryError e
  /\ isFileBinaryError (ErrorArray (before ++ e :: after))
     = isFileBinaryError (ErrorArray before)
       || isFileBinaryError e
       || isFileBinaryError (ErrorArray after)
  /\ isFileBinaryError (ErrorArray []) = false.
Proof.
  split; [|split; [|reflexivity]].
  - induction k as [|k IH]; [reflexivity|].
    change (isFileBinaryError (wrapped k e) || false = isFileBinaryError e).
    rewrite orb_false_r. exact IH.
  - change (existsb isFileBinaryError (before ++ e :: after)
            = existsb isFileBinaryError before
              || isFileBinaryError e
              || existsb isFileBinaryError after).
    rewrite existsb_app. simpl. rewrite orb_assoc. reflexivity.
Qed.

(** *** The toggle action and the widget *)

(** X13: the toggle action is the last secondary action, after those of
    the base editor, enabled and with order 50.  Built while the widget
    exists, it is labelled with the view the widget is not in, and its
    first run asks the widget for that view, whatever view the widget
    is in by then: the action follows the mode it saw when it was
    built. *)
Theorem toggleEditorModeAction_first_run (s s1 : State) (c c1 : IDiffEditor) :
  editorControl s = Some c ->
  editorControl s1 = Some c1 ->
  exists a,
    getSecondaryActions s
    = (Normal (map BaseAction super_getSecondaryActions
               ++ [ToggleEditorModeAction a (Some (negb (renderSideBySide c)))]), s)
    /\ label a = (if renderSideBySide c then inlineLabel else sideBySideLabel)
    /\ enabled a = true
    /\ order a = Some 50
    /\ calls (snd (toggleEditorModeAction_run a
                     (Some (negb (renderSideBySide c))) s1))
       = calls s1
         ++ [ControlUpdateOptions
               {| readOnly := None; ariaLabel := None;
                  renderSideBySide_option := Some (negb (renderSideBySide c)) |}].
Proof.
  intros H H1.
  unfold getSecondaryActions, toggleEditorModeAction_run, getControl,
    bind, get, ret, call, modify, deref; simpl.
  rewrite H, H1; simpl.
  eexists. split; [reflexivity|]. simpl.
  destruct (renderSideBySide c); repeat split; reflexivity.
Qed.

(** X14: built before the widget exists, the toggle action starts with
    an undefined mode and the inline label.  Its first run then sends
    no view at all, the second sends side by side, and after two runs
    the action is not what it was built as: its mode is false, no
    longer undefined.  Run while there is no widget, it throws a
    [TypeError] and changes nothing. *)
Theorem toggleEditorModeAction_built_without_widget (s s1 s2 s3 : State)
    (c1 c2 : IDiffEditor) :
  editorControl s = None ->
  editorControl s1 = Some c1 ->
  editorControl s2 = Some c2 ->
  editorControl s3 = None ->
  exists a a1 a2,
    getSecondaryActions s
    = (Normal (map BaseAction super_getSecondaryActions
               ++ [ToggleEditorModeAction a None]), s)
    /\ label a = inlineLabel
    /\ toggleEditorModeAction_run a None s1
       = (Normal (ToggleEditorModeAction a1 (Some true)),
          with_calls (calls s1 ++
            [ControlUpdateOptions {| readOnly := None; ariaLabel := None;
                                     renderSideBySide_option := None |}]) s1)
    /\ label a1 = sideBySideLabel
    /\ toggleEditorModeAction_run a1 (Some true) s2
       = (Normal (ToggleEditorModeAction a2 (Some false)),
          with_calls (calls s2 ++
            [ControlUpdateOptions {| readOnly := None; ariaLabel := None;
                                     renderSideBySide_option := Some true |}]) s2)
    /\ label a2 = inlineLabel
    /\ toggleEditorModeAction_run a None s3
       = (Throw (TypeError "updateOptions"), s3).
Proof.
  intros H H1 H2 H3.
  unfold getSecondaryActions, toggleEditorModeAction_run, getControl,
    bind, get, ret, call, modify, deref, throw; simpl.
  rewrite H, H1, H2, H3; simpl.
  eexists _, _, _. repeat split; reflexivity.
Qed.

(** *** The editor service handed to the widget *)

(** The third argument of [openEditor]: absent, a boolean (open to the
    side), or a position. *)
Inductive OpenEditorArg3 : Type :=
| Arg3Undefined
| Arg3Null
| Arg3Boolean (sideBySide : bool)
| Arg3Position (p : Position).

(** [types.isUndefinedOrNull(arg3) || arg3 === false || arg3 === this.position] *)
Definition addressed_to_pane (arg3 : OpenEditorArg3) (here : option Position) : bool :=
  match arg3 with
  | Arg3Undefined | Arg3Null => true
  | Arg3Boolean b => negb b
  | Arg3Position p =>
      match here with
      | Some q => Nat.eqb p q
      | None => false
      end
  end.

(** What the delegate hands back: the promise of [setInput] mapped to
    the pane ([.then(() => this)]), [TPromise.as(this)], or
    [TPromise.as(null)]. *)
Inductive DelegateResult : Type :=
| SetInputThenThis (p : SetInputPromise)
| AsThis
| AsNull.

(** [activeDiffInput.modifiedInput] and [.originalInput]; undefined when
    the active input is not a diff input. *)
Definition modifiedInput_of (i : EditorInput) : option EditorInput :=
  match i with
  | DiffEditorInput _ _ _ _ modifiedInput _ => Some modifiedInput
  | _ => None
  end.

Definition originalInput_of (i : EditorInput) : option EditorInput :=
  match i with
  | DiffEditorInput _ _ _ originalInput _ _ => Some originalInput
  | _ => None
  end.

(** [options instanceof TextEditorOptions] *)
Definition instanceof_TextEditorOptions (o : EditorOptions) : bool :=
  match optionsClass o with
  | EditorOptionsClass => false
  | _ => true
  end.

(** The callback [createEditorControl] gives to the
    [DelegatingWorkbenchEditorService] of the widget. *)
Definition delegatingOpenEditor (i : option EditorInput) (o : option EditorOptions)
    (arg3 : OpenEditorArg3) : M DelegateResult :=
  here <- get position ;;
  if addressed_to_pane arg3 here then
    activeDiffInput <- getInput ;;
    match i, o, activeDiffInput with
    | Some i, Some o, Some activeDiffInput =>
        if matches i (modifiedInput_of activeDiffInput) then
          current <- getInput ;;
          current <- deref "matches" current ;;
          p <- setInput current (Some o) ;;
          ret (SetInputThenThis p)
        else if matches i (originalInput_of activeDiffInput) then
          c <- getControl ;;
          _ <- deref "getOriginalEditor" c ;;
          if instanceof_TextEditorOptions o then
            call (OriginalEditorApply o) ;;
            ret AsThis
          else ret AsNull
        else ret AsNull
    | _, _, _ => ret AsNull
    end
  else ret AsNull.

(** X15: the delegate leaves the pane alone and answers null when the
    request names another position or asks to open to the side, when it
    lacks an input or options, or when the pane shows no input. *)
Theorem delegatingOpenEditor_not_for_pane (s : State) (i : option EditorInput)
    (o : option EditorOptions) (arg3 : OpenEditorArg3) :
  addressed_to_pane arg3 (position s) = false
  \/ i = None \/ o = None \/ input s = None ->
  delegatingOpenEditor i o arg3 s = (Normal AsNull, s).
Proof.
  intros H. unfold delegatingOpenEditor, getInput, bind, get, ret; simpl.
  destruct (addressed_to_pane arg3 (position s)); [|reflexivity].
  destruct H as [H|[->|[->|H]]]; [discriminate| | |].
  - reflexivity.
  - destruct i; reflexivity.
  - rewrite H. destruct i, o; reflexivity.
Qed.


(** X17: a request addressed to the pane for the original side of the
    diff it shows never reaches [setInput].  With text options the
    delegate makes one call, [apply] of the options on the widget's
    original editor, and answers with the pane; with other options it
    makes no call and answers null; nothing else of the pane changes.
    The original editor is fetched before the options are looked at,
    so without a widget the delegate throws a [TypeError] either way. *)
Theorem delegatingOpenEditor_original_side (s : State) (i active : EditorInput)
    (o : EditorOptions) (arg3 : OpenEditorArg3) :
  addressed_to_pane arg3 (position s) = true ->
  input s = Some active ->
  matches i (modifiedInput_of active) = false ->
  matches i (originalInput_of active) = true ->
  delegatingOpenEditor (Some i) (Some o) arg3 s
  = match editorControl s with
    | Some _ =>
        if instanceof_TextEditorOptions o
        then (Normal AsThis, with_calls (calls s ++ [OriginalEditorApply o]) s)
        else (Normal AsNull, s)
    | None => (Throw (TypeError "getOriginalEditor"), s)
    end.
Proof.
  intros Ha Hin Hm Ho.
  unfold delegatingOpenEditor, getInput, getControl, bind, get, ret, deref,
    throw, call, modify; simpl.
  rewrite Ha, Hin, Hm, Ho; simpl.
  destruct (editorControl s); simpl; [|reflexivity].
  destruct (instanceof_TextEditorOptions o); reflexivity.
Qed.

(** *** The live navigators, listed *)

Lemma at_most_one_equal {A} (l : list A) (k : A) :
  List.NoDup l -> (forall x, In x l -> x = k) -> length l <= 1.
Proof.
  intros Hnd Hall. destruct l as [|a [|b l]]; simpl; try lia.
  exfalso. inversion Hnd as [|x l' Hnotin _]; subst. apply Hnotin.
  rewrite (Hall a), <- (Hall b); simpl; auto.
Qed.

(** X18: when the host never starts a resolution while another is in
    flight, the list of live navigators has at most one element in
    every state the pane reaches, and that element is the navigator the
    pane holds. *)
Theorem live_navigators_at_most_one (es : list Stimulus) :
  well_spaced es new_pane ->
  length (live_navigators (run es new_pane)) <= 1
  /\ forall n, In n (live_navigators (run es new_pane)) ->
               diffNavigator (run es new_pane) = Some n.
Proof.
  intros Hw.
  assert (Ho : one_at_a_time (run es new_pane)).
  { apply one_at_a_time_run; [exact Hw|]. split; [|split].
    - intros k Hk. discriminate Hk.
    - intros j k lj lk Hj. discriminate Hj.
    - intros k l Hk. discriminate Hk. }
  destruct Ho as (H1 & _).
  assert (Hheld : forall n, In n (live_navigators (run es new_pane)) ->
                            diffNavigator (run es new_pane) = Some n).
  { intros n Hn. apply H1. unfold live_navigators in Hn.
    apply List.filter_In in Hn. tauto. }
  split; [|exact Hheld].
  destruct (diffNavigator (run es new_pane)) as [k|] eqn:Ek.
  - apply (at_most_one_equal _ k).
    + apply List.NoDup_filter, List.seq_NoDup.
    + intros x Hx. apply Hheld in Hx. congruence.
  - destruct (live_navigators (run es new_pane)) as [|a l] eqn:El; simpl; [lia|].
    specialize (Hheld a (or_introl eq_refl)). discriminate.
Qed.

End TextDiffEditor.

(** ** The properties on a concrete pane *)

Local Open Scope list_scope.

(** A host whose inputs match by identity, as the base [EditorInput]
    does, and whose base text editor sets no option of its own. *)
Definition identity_matches (a : EditorInput) (b : option EditorInput) : bool :=
  match b with
  | Some b => same_object a b
  | None => false
  end.

Definition no_options : IDiffEditorOptions :=
  {| readOnly := None; ariaLabel := None; renderSideBySide_option := None |}.

Definition compare_with_output : EditorInput :=
  DiffEditorInput (Host 7) (Some "a.txt - output") None
    (OtherEditorInput (Host 2) (Some "a.txt") None)
    (StringEditorInput (Host 8) (Some "output") None) false.

Definition text_options : EditorOptions :=
  {| forceOpen := false; optionsClass := TextEditorOptionsClass |}.

(** [compare_ab] is shown and its diff is loaded. *)
Definition showing_ab : State :=
  run identity_matches no_options
    [ CreateEditor side_by_side;
      SetInput compare_ab None;
      ResolveDone 0 (Some (TextDiffEditorModel 10)) ] new_pane.

(** [compare_cd] was set while [compare_ab] was still being resolved. *)
Definition superseded_ab : State :=
  run identity_matches no_options
    [ CreateEditor side_by_side;
      SetInput compare_ab None;
      SetInput compare_cd None ] new_pane.

Definition binary_errors : ErrorValue :=
  ErrorArray [ ErrorObject "EACCES" None;
               ErrorObject "File seems to be binary" (Some FILE_IS_BINARY) ].


Lemma binary_errors_FileIsBinary : FileIsBinary binary_errors.
Proof.
  apply (binary_array _ (ErrorObject "File seems to be binary" (Some FILE_IS_BINARY))).
  - right. left. reflexivity.
  - constructor.
Defined.


Lemma getCodeEditorOptions_diff_input_witness :
  exists o ro,
    getCodeEditorOptions no_options (with_input (Some compare_with_output) None new_pane)
      = (Normal o, with_input (Some compare_with_output) None new_pane)
    /\ readOnly o = Some ro
    /\ (ro = true <->
          instanceof_StringEditorInput (StringEditorInput (Host 8) (Some "output") None) = true
          \/ instanceof_ResourceEditorInput (StringEditorInput (Host 8) (Some "output") None) = true)
    /\ ariaLabel o = Some (compare_editor_label ro (Some "a.txt - output")).
Proof.
  apply (getCodeEditorOptions_diff_input no_options
           (with_input (Some compare_with_output) None new_pane)
           (Host 7) (Some "a.txt - output") None
           (OtherEditorInput (Host 2) (Some "a.txt") None)
           (StringEditorInput (Host 8) (Some "output") None) false).
  reflexivity.
Defined.

Lemma NavigateAction_run_forwards_witness :
  diffNavigator showing_ab = Some 0
  /\ snd (NavigateAction_run (set_enabled true (new_NavigateAction false)) showing_ab)
      = with_calls
          (calls showing_ab
           ++ [if next (set_enabled true (new_NavigateAction false))
               then NavigatorNext 0 else NavigatorPrevious 0]) showing_ab
  /\ next (new_NavigateAction true) = true
  /\ next (new_NavigateAction false) = false.
Proof.
  split; [reflexivity|].
  apply (NavigateAction_run_forwards showing_ab
           (set_enabled true (new_NavigateAction false)) 0).
  reflexivity.
Defined.

Lemma toggleEditorModeAction_run_twice_witness :
  editorControl showing_ab = Some side_by_side
  /\ exists a m a1,
      fst (getSecondaryActions [] showing_ab)
        = Normal (map BaseAction [] ++ [ToggleEditorModeAction a (Some m)])
      /\ label a = (if m then sideBySideLabel else inlineLabel)
      /\ toggleEditorModeAction_run a (Some m) showing_ab
          = (Normal (ToggleEditorModeAction a1 (Some (negb m))),
             with_calls (calls showing_ab ++
               [ControlUpdateOptions {| readOnly := None; ariaLabel := None;
                                        renderSideBySide_option := Some m |}])
               showing_ab)
      /\ label a1 = (if m then inlineLabel else sideBySideLabel)
      /\ toggleEditorModeAction_run a1 (Some (negb m)) showing_ab
          = (Normal (ToggleEditorModeAction a (Some m)),
             with_calls (calls showing_ab ++
               [ControlUpdateOptions {| readOnly := None; ariaLabel := None;
                                        renderSideBySide_option := Some (negb m) |}])
               showing_ab).
Proof.
  split; [reflexivity|].
  apply (toggleEditorModeAction_run_twice [] showing_ab showing_ab showing_ab
           side_by_side side_by_side side_by_side); reflexivity.
Defined.

(** The involution property with no condition on when the action is
    built: for an action built in [s] and run in [s1] and then in
    [s2], two runs bring the label and the mode asked of the widget
    back to what they were before the first run. *)
Definition two_runs_restore (s s1 s2 : State) : Prop :=
  forall a m a1 m1 a2 m2 st1 st2,
    fst (getSecondaryActions [] s) = Normal [ToggleEditorModeAction a m] ->
    toggleEditorModeAction_run a m s1
      = (Normal (ToggleEditorModeAction a1 m1), st1) ->
    toggleEditorModeAction_run a1 m1 s2
      = (Normal (ToggleEditorModeAction a2 m2), st2) ->
    label a2 = label a /\ m2 = m.

(** C10 without that condition fails: for an action built before the
    widget exists, [control && !control.renderSideBySide] is undefined,
    and two runs leave the mode false. *)
Lemma two_runs_do_not_restore_undefined_mode :
  ~ two_runs_restore new_pane showing_ab showing_ab.
Proof.
  intros H.
  destruct (H _ None _ (Some true) _ (Some false) _ _
              eq_refl eq_refl eq_refl) as [_ E].
  discriminate E.
Qed.

Lemma setInput_same_input_keeps_navigator_witness :
  identity_matches compare_ab (input showing_ab) = true
  /\ exists s',
      setInput identity_matches compare_ab (Some text_options) showing_ab
        = (Normal TPromise_as_null, s')
      /\ navigators s' = navigators showing_ab
      /\ diffNavigator s' = diffNavigator showing_ab
      /\ loads s' = loads showing_ab
      /\ (calls s' = calls showing_ab
          \/ exists textOptions,
               Some text_options = Some textOptions
               /\ calls s' = calls showing_ab
                             ++ [OptionsApply textOptions (editorControl showing_ab)]).
Proof.
  split; [reflexivity|].
  apply (setInput_same_input_keeps_navigator identity_matches showing_ab
           compare_ab (Some text_options)); reflexivity.
Defined.



Lemma stale_result_still_reopens_as_binary_witness :
  stale superseded_ab compare_ab
  /\ instanceof_TextDiffEditorModel (Some OtherEditorModel) = false
  /\ FileIsBinary binary_errors
  /\ calls (snd (setInput_resolved no_options compare_ab None
                   (Some OtherEditorModel) superseded_ab))
      = calls superseded_ab
        ++ [OpenEditor
              (DiffEditorInput (Own 0) (Some "a.txt - b.txt") None
                 (OtherEditorInput (Host 2) (Some "a.txt") None)
                 (OtherEditorInput (Host 3) (Some "b.txt") None) true)
              None None]
  /\ calls (snd (setInput_rejected compare_ab None binary_errors superseded_ab))
      = calls superseded_ab
        ++ [OpenEditor
              (DiffEditorInput (Own 0) (Some "a.txt - b.txt") None
                 (OtherEditorInput (Host 2) (Some "a.txt") None)
                 (OtherEditorInput (Host 3) (Some "b.txt") None) true)
              None None].
Proof.
  split; [reflexivity|]. split; [reflexivity|].
  split; [exact binary_errors_FileIsBinary|].
  apply (stale_result_still_reopens_as_binary no_options superseded_ab (Host 1)
           (Some "a.txt - b.txt") None
           (OtherEditorInput (Host 2) (Some "a.txt") None)
           (OtherEditorInput (Host 3) (Some "b.txt") None) false None
           (Some OtherEditorModel) binary_errors);
    [reflexivity | reflexivity | exact binary_errors_FileIsBinary].
Defined.

Lemma reload_race_leaves_two_navigators_live_witness :
  identity_matches compare_ab None = false
  /\ identity_matches compare_cd (Some compare_ab) = false
  /\ identity_matches compare_ab (Some compare_cd) = false
  /\ live_navigators (run identity_matches no_options reload_race new_pane) = [0; 1]
  /\ live_navigators (run identity_matches no_options reload_race_then_other new_pane)
      = [0; 2]
  /\ ~ In (NavigatorDispose 0)
         (calls (run identity_matches no_options reload_race_then_other new_pane))
  /\ In (NewDiffNavigator 2 true)
        (calls (run identity_matches no_options reload_race_then_other new_pane)).
Proof.
  split; [reflexivity|]. split; [reflexivity|]. split; [reflexivity|].
  apply (reload_race_leaves_two_navigators_live identity_matches no_options);
    reflexivity.
Defined.

Definition shown_and_loaded : list Stimulus :=
  [ CreateEditor side_by_side;
    SetInput compare_ab None;
    ResolveDone 0 (Some (TextDiffEditorModel 10)) ].

Lemma navigate_actions_mirror_navigator_witness :
  (Forall (fun e => is_update e = false) shown_and_loaded
   /\ both_disabled (run identity_matches no_options shown_and_loaded new_pane))
  /\ (0 < length (navigators (run identity_matches no_options shown_and_loaded new_pane))
      /\ exists m cur a p,
          let s' := deliver identity_matches no_options (NavigatorUpdated 0 true)
                      (run identity_matches no_options shown_and_loaded new_pane) in
          diffNavigator s' = Some m
          /\ navigators s' !! m = Some cur
          /\ nextDiffAction s' = Some a
          /\ previousDiffAction s' = Some p
          /\ enabled (action a) = canNavigate cur
          /\ enabled (action p) = canNavigate cur
          /\ (m = 0 -> canNavigate cur = true)).
Proof.
  destruct (navigate_actions_mirror_navigator identity_matches no_options
              shown_and_loaded) as [Hquiet Hupdate].
  assert (Hes : Forall (fun e => is_update e = false) shown_and_loaded)
    by (repeat constructor).
  split.
  - split; [exact Hes | exact (Hquiet Hes)].
  - split; [repeat constructor|].
    apply (Hupdate 0 true). repeat constructor.
Defined.

(** The invariant applies to a host that waits for each resolution. *)
Lemma at_most_one_live_without_overlap_example :
  well_spaced identity_matches no_options
    (shown_and_loaded ++ [SetInput compare_cd None;
                          ResolveDone 1 (Some (TextDiffEditorModel 11))]) new_pane
  /\ live_navigators
       (run identity_matches no_options
          (shown_and_loaded ++ [SetInput compare_cd None;
                                ResolveDone 1 (Some (TextDiffEditorModel 11))])
          new_pane) = [1].
Proof.
  split; [|reflexivity].
  simpl. repeat split; intros k l Hk Hp.
  - discriminate Hk.
  - destruct k as [|k]; [|discriminate Hk].
    injection Hk as <-. discriminate Hp.
Qed.

(** ** Further properties on a concrete pane *)

Definition after_the_race : list Stimulus :=
  [ ClearInput;
    SetInput compare_cd None;
    ResolveDone 3 (Some (TextDiffEditorModel 11)) ].

Lemma lost_navigator_stays_live_witness :
  Forall not_Dispose (reload_race ++ after_the_race)
  /\ lost (run identity_matches no_options reload_race new_pane) 0
  /\ lost (run identity_matches no_options (reload_race ++ after_the_race)
             new_pane) 0.
Proof.
  assert (Hd : Forall not_Dispose (reload_race ++ after_the_race)).
  { repeat constructor. }
  assert (H : lost (run identity_matches no_options reload_race new_pane) 0).
  { split; [reflexivity | discriminate]. }
  split; [exact Hd|]. split; [exact H|].
  apply (lost_navigator_stays_live identity_matches no_options reload_race
           after_the_race 0 Hd H).
Defined.

Lemma getActions_previous_then_next_witness :
  is_Some (editorControl (run identity_matches no_options shown_and_loaded new_pane))
  /\ exists b,
      getActions (run identity_matches no_options shown_and_loaded new_pane)
      = (Normal [Some (set_enabled b (new_NavigateAction false));
                 Some (set_enabled b (new_NavigateAction true))],
         run identity_matches no_options shown_and_loaded new_pane).
Proof.
  assert (H : is_Some (editorControl
                         (run identity_matches no_options shown_and_loaded new_pane))).
  { exists side_by_side. reflexivity. }
  split; [exact H|].
  apply (getActions_previous_then_next identity_matches no_options
           shown_and_loaded H).
Defined.

Definition loaded_with_changes : list Stimulus :=
  shown_and_loaded ++ [NavigatorUpdated 0 true].

(** The flags are not reset when a reload disposes the held
    navigator: the next-change action is still enabled while the
    navigator it would forward to is no longer live. *)
Example enabled_flag_outlives_navigator :
  let s := run identity_matches no_options
             (loaded_with_changes ++ [SetInput compare_cd None]) new_pane in
  nextDiffAction s = Some (set_enabled true (new_NavigateAction true))
  /\ diffNavigator s = Some 0
  /\ live s 0 = false.
Proof. repeat split. Qed.

Lemma enabled_action_has_navigator_witness :
  let s := run identity_matches no_options loaded_with_changes new_pane in
  let a := set_enabled true (new_NavigateAction true) in
  (nextDiffAction s = Some a \/ previousDiffAction s = Some a)
  /\ enabled (action a) = true
  /\ exists n,
      diffNavigator s = Some n
      /\ snd (NavigateAction_run a s)
         = with_calls (calls s ++ [if next a then NavigatorNext n
                                   else NavigatorPrevious n]) s.
Proof.
  intros s a.
  assert (H : nextDiffAction s = Some a \/ previousDiffAction s = Some a).
  { left. reflexivity. }
  split; [exact H|]. split; [reflexivity|].
  apply (enabled_action_has_navigator identity_matches no_options
           loaded_with_changes a H).
  reflexivity.
Defined.

(** [compare_ab] is set and its resolution is under way. *)
Definition awaiting_ab : State :=
  run identity_matches no_options
    [ CreateEditor side_by_side; SetInput compare_ab None ] new_pane.


Lemma setInput_resolved_late_is_dropped_witness :
  stale superseded_ab compare_ab
  /\ (instanceof_TextDiffEditorModel (Some (TextDiffEditorModel 10)) = true
      \/ instanceof_DiffEditorInput compare_ab = false)
  /\ setInput_resolved no_options compare_ab None
       (Some (TextDiffEditorModel 10)) superseded_ab
     = (Normal ReturnNull, superseded_ab).
Proof.
  split; [reflexivity|].
  assert (H : instanceof_TextDiffEditorModel (Some (TextDiffEditorModel 10)) = true
              \/ instanceof_DiffEditorInput compare_ab = false).
  { left. reflexivity. }
  split; [exact H|].
  apply (setInput_resolved_late_is_dropped no_options superseded_ab compare_ab
           None (Some (TextDiffEditorModel 10))); [reflexivity | exact H].
Defined.

Lemma setInput_resolved_installs_witness :
  input awaiting_ab = Some compare_ab
  /\ same_object compare_ab compare_ab = true
  /\ editorControl awaiting_ab = Some side_by_side
  /\ exists s',
      setInput_resolved no_options compare_ab (Some text_options)
        (Some (TextDiffEditorModel 10)) awaiting_ab
        = (Normal ReturnUndefined, s')
      /\ calls s'
         = calls awaiting_ab
           ++ [ControlSetModel (Some 10);
               NewDiffNavigator (length (navigators awaiting_ab))
                 (reveal_first_change (Some text_options));
               NavigatorAddListener (length (navigators awaiting_ab))]
           ++ apply_calls (Some text_options) side_by_side
           ++ [ControlUpdateOptions
                 (match fst (getCodeEditorOptions no_options awaiting_ab) with
                  | Normal opts => opts
                  | Throw _ => no_options
                  end)]
      /\ navigators s'
         = navigators awaiting_ab
           ++ [new_navigator (reveal_first_change (Some text_options))]
      /\ diffNavigator s' = Some (length (navigators awaiting_ab))
      /\ live s' (length (navigators awaiting_ab)) = true
      /\ input s' = input awaiting_ab.
Proof.
  split; [reflexivity|]. split; [reflexivity|]. split; [reflexivity|].
  apply (setInput_resolved_installs no_options awaiting_ab compare_ab compare_ab
           (Some text_options) 10 side_by_side); reflexivity.
Defined.




Lemma toggleEditorModeAction_first_run_witness :
  editorControl showing_ab = Some side_by_side
  /\ exists a,
      getSecondaryActions [] showing_ab
      = (Normal (map BaseAction []
                 ++ [ToggleEditorModeAction a
                       (Some (negb (renderSideBySide side_by_side)))]),
         showing_ab)
      /\ label a = (if renderSideBySide side_by_side
                    then inlineLabel else sideBySideLabel)
      /\ enabled a = true
      /\ order a = Some 50
      /\ calls (snd (toggleEditorModeAction_run a
                       (Some (negb (renderSideBySide side_by_side))) showing_ab))
         = calls showing_ab
           ++ [ControlUpdateOptions
                 {| readOnly := None; ariaLabel := None;
                    renderSideBySide_option :=
                      Some (negb (renderSideBySide side_by_side)) |}].
Proof.
  split; [reflexivity|].
  apply (toggleEditorModeAction_first_run [] showing_ab showing_ab
           side_by_side side_by_side); reflexivity.
Defined.

Lemma toggleEditorModeAction_built_without_widget_witness :
  editorControl new_pane = None
  /\ editorControl showing_ab = Some side_by_side
  /\ exists a a1 a2,
      getSecondaryActions [] new_pane
      = (Normal (map BaseAction [] ++ [ToggleEditorModeAction a None]), new_pane)
      /\ label a = inlineLabel
      /\ toggleEditorModeAction_run a None showing_ab
         = (Normal (ToggleEditorModeAction a1 (Some true)),
            with_calls (calls showing_ab ++
              [ControlUpdateOptions {| readOnly := None; ariaLabel := None;
                                       renderSideBySide_option := None |}])
              showing_ab)
      /\ label a1 = sideBySideLabel
      /\ toggleEditorModeAction_run a1 (Some true) showing_ab
         = (Normal (ToggleEditorModeAction a2 (Some false)),
            with_calls (calls showing_ab ++
              [ControlUpdateOptions {| readOnly := None; ariaLabel := None;
                                       renderSideBySide_option := Some true |}])
              showing_ab)
      /\ label a2 = inlineLabel
      /\ toggleEditorModeAction_run a None new_pane
         = (Throw (TypeError "updateOptions"), new_pane).
Proof.
  split; [reflexivity|]. split; [reflexivity|].
  apply (toggleEditorModeAction_built_without_widget [] new_pane showing_ab
           showing_ab new_pane side_by_side side_by_side); reflexivity.
Defined.

Definition file_a : EditorInput := OtherEditorInput (Host 2) (Some "a.txt") None.
Definition file_b : EditorInput := OtherEditorInput (Host 3) (Some "b.txt") None.

Lemma delegatingOpenEditor_not_for_pane_witness :
  (addressed_to_pane (Arg3Boolean true) (position showing_ab) = false
   \/ Some file_b = None \/ Some text_options = None \/ input showing_ab = None)
  /\ delegatingOpenEditor identity_matches (Some file_b) (Some text_options)
       (Arg3Boolean true) showing_ab
     = (Normal AsNull, showing_ab).
Proof.
  assert (H : addressed_to_pane (Arg3Boolean true) (position showing_ab) = false
              \/ Some file_b = None \/ Some text_options = None
              \/ input showing_ab = None).
  { left. reflexivity. }
  split; [exact H|].
  apply (delegatingOpenEditor_not_for_pane identity_matches showing_ab
           (Some file_b) (Some text_options) (Arg3Boolean true) H).
Defined.


Lemma delegatingOpenEditor_original_side_witness :
  addressed_to_pane Arg3Undefined (position showing_ab) = true
  /\ input showing_ab = Some compare_ab
  /\ identity_matches file_a (modifiedInput_of compare_ab) = false
  /\ identity_matches file_a (originalInput_of compare_ab) = true
  /\ delegatingOpenEditor identity_matches (Some file_a) (Some text_options)
       Arg3Undefined showing_ab
     = match editorControl showing_ab with
       | Some _ =>
           if instanceof_TextEditorOptions text_options
           then (Normal AsThis,
                 with_calls (calls showing_ab ++ [OriginalEditorApply text_options])
                   showing_ab)
           else (Normal AsNull, showing_ab)
       | None => (Throw (TypeError "getOriginalEditor"), showing_ab)
       end.
Proof.
  do 4 (split; [reflexivity|]).
  apply (delegatingOpenEditor_original_side identity_matches showing_ab file_a
           compare_ab text_options Arg3Undefined); reflexivity.
Defined.

Definition one_after_the_other : list Stimulus :=
  shown_and_loaded ++ [SetInput compare_cd None;
                       ResolveDone 1 (Some (TextDiffEditorModel 11))].

Lemma one_after_the_other_well_spaced :
  well_spaced identity_matches no_options one_after_the_other new_pane.
Proof.
  simpl. repeat split; intros k l Hk Hp.
  - discriminate Hk.
  - destruct k as [|k]; [|discriminate Hk].
    injection Hk as <-. discriminate Hp.
Defined.

Lemma live_navigators_at_most_one_witness :
  well_spaced identity_matches no_options one_after_the_other new_pane
  /\ length (live_navigators
               (run identity_matches no_options one_after_the_other new_pane)) <= 1
  /\ forall n,
       In n (live_navigators
               (run identity_matches no_options one_after_the_other new_pane)) ->
       diffNavigator (run identity_matches no_options one_after_the_other new_pane)
       = Some n.
Proof.
  split; [exact one_after_the_other_well_spaced|].
  apply (live_navigators_at_most_one identity_matches no_options
           one_after_the_other one_after_the_other_well_spaced).
Defined.
